(** * swingby: the gravity simulation of [main.go] and of its N-body successor

    The repository holds two variants of one program.  [main.go] simulates a
    planet and a spacecraft that are fields of the [Game] struct; the second
    file keeps a slice of pointers to [SpaceObject]s and lets every object
    attract every other one.  Both are embedded below, each in a module of its
    own ([TwoBody], [NBody]), over the shared [Vector] type.

    Go's [float64] is IEEE 754 binary64.  The code is written once over an
    interface of the float64 operations ([Float64]) and read in two ways:
    - [binary64]: Rocq's primitive floats, the arithmetic the compiled
      program runs (each operation rounded on its own, as on amd64 where no
      fused multiply-add is emitted);
    - [exact]: the real numbers, the arithmetic the force law and the
      integrator are designed in.  This reading is an idealisation, not the
      program: nothing is rounded, nothing overflows, there is no
      not-a-number, and a division by zero has a value.
    Statements about the program are made for every [Float64] instance or
    for [binary64]; a statement made at [exact] alone is about the formulas
    the code evaluates, and says so. *)

From Stdlib Require Import ZArith QArith Reals Lra Floats.
From stdpp Require Import gmap list strings.

(** ** The float64 operations used by the program *)

Class Float64 (F : Type) := {
  f64_add : F → F → F;
  f64_sub : F → F → F;
  f64_mul : F → F → F;
  f64_div : F → F → F;
  f64_neg : F → F;
  f64_sqrt : F → F;                (* math.Sqrt *)
  (* A constant expression: Go evaluates it exactly and converts the result
     to float64 once.  Also the conversion float64(n) of an int. *)
  f64_const : Q → F;
}.

Arguments f64_const {F _} q%_Q.

Declare Scope f64_scope.
Delimit Scope f64_scope with f64.
Infix "+" := f64_add : f64_scope.
Infix "-" := f64_sub : f64_scope.
Infix "*" := f64_mul : f64_scope.
Infix "/" := f64_div : f64_scope.
Notation "- x" := (f64_neg x) : f64_scope.

(** The rational [q] rounded to the nearest binary64 value (ties to even):
    one correctly rounded division of the exact numerator by the exact
    denominator. *)
Definition SF64_of_Q (q : Q) : spec_float :=
  match Qnum q with
  | Z0 => S754_zero false
  | Zpos n => SF64div (S754_finite false n 0) (S754_finite false (Qden q) 0)
  | Zneg n => SF64div (S754_finite true n 0) (S754_finite false (Qden q) 0)
  end.

#[export] Instance binary64 : Float64 float := {|
  f64_add := PrimFloat.add;
  f64_sub := PrimFloat.sub;
  f64_mul := PrimFloat.mul;
  f64_div := PrimFloat.div;
  f64_neg := PrimFloat.opp;
  f64_sqrt := PrimFloat.sqrt;
  f64_const q := SF2Prim (SF64_of_Q q);
|}.

#[export] Instance exact : Float64 R := {|
  f64_add := Rplus;
  f64_sub := Rminus;
  f64_mul := Rmult;
  f64_div := Rdiv;
  f64_neg := Ropp;
  f64_sqrt := R_sqrt.sqrt;
  f64_const := Q2R;
|}.

(** float64(n) for an int [n]. *)
Definition float64 `{Float64 F} (n : Z) : F := f64_const (inject_Z n).

(** ** type Vector struct *)

Record Vector (F : Type) := mkVector { X : F; Y : F }.
Arguments mkVector {F} _ _.
Arguments X {F} _.
Arguments Y {F} _.

Section VectorOps.
Context `{Float64 F}.
Local Open Scope f64_scope.

(* calculate the length of the vector using the pythagorean theorem *)
Definition Length (v : Vector F) : F :=
  f64_sqrt (X v * X v + Y v * Y v).

(* returns a normalized version of the vector (length = 1) *)
Definition Normalize (v : Vector F) : Vector F :=
  let length := Length v in
  mkVector (X v / length) (Y v / length).

(* returns a scaled version of the vector *)
Definition Scale (v : Vector F) (xScale yScale : F) : Vector F :=
  mkVector (X v * xScale) (Y v * yScale).

(* returns a translated version of the vector *)
Definition Translate (v : Vector F) (dx dy : F) : Vector F :=
  mkVector (X v + dx) (Y v + dy).
End VectorOps.

(** ** Presentation data

    Images are handles owned by the rendering library ([*ebiten.Image], nil
    until one is created); colours are [color.Color] values.  The simulation
    step never looks at them. *)

Definition ImageRef := option nat.

Inductive Color :=
  | nilColor
  | RGBA (r g b a : Z)
  | White.

(** Go's [error] results. *)
Inductive error :=
  | nilError
  | Error (msg : string).

(** ** Position accesses of one step (ghost state)

    The embedding records, in program order, each gravitational-force
    computation with the two positions it reads, and each assignment to a
    position field with the position the body has after it.  [B] names the
    bodies. *)

Inductive Event (B F : Type) :=
  | ForceRead (target source : B) (targetPos sourcePos : Vector F)
  | PositionWrite (body : B) (newPos : Vector F).
Arguments ForceRead {B F} _ _ _ _.
Arguments PositionWrite {B F} _ _.

Definition isPositionWrite {B F} (e : Event B F) : bool :=
  match e with PositionWrite _ _ => true | ForceRead _ _ _ _ => false end.

(** Every force computation of the trace [tr] reads the positions [pre]
    (the positions before the step). *)
Definition reads_pre_tick {B F} (pre : B → option (Vector F)) (tr : list (Event B F)) : Prop :=
  ∀ k t s pt ps, tr !! k = Some (ForceRead t s pt ps) →
    pre t = Some pt ∧ pre s = Some ps.

(** No position is assigned before a force computation of the trace. *)
Definition no_write_before_read {B F} (tr : list (Event B F)) : Prop :=
  ∀ k k' t s pt ps, tr !! k = Some (ForceRead t s pt ps) → (k' < k)%nat →
    ∀ e, tr !! k' = Some e → isPositionWrite e = false.

(** ** main.go: a planet and a spacecraft *)

Module TwoBody.

Inductive Body := planet_id | spacecraft_id.

Section Code.
Context `{Float64 F}.
Local Open Scope f64_scope.

Record Planet := mkPlanet {
  p_mass : F;                (* mass of the Planet in kg *)
  p_position : Vector F;     (* position vector of the planet in m *)
  p_velocity : Vector F;     (* velocity vector of the planet in m/s *)
  p_img : ImageRef;          (* planet image *)
  p_pathImg : ImageRef;      (* image of the planets path *)
}.

Record Spacecraft := mkSpacecraft {
  mass : F;                  (* mass of the spacecraft in kg *)
  position : Vector F;       (* position vector of the spacecraft in m *)
  velocity : Vector F;       (* velocity vector of the spacecraft in m/s *)
  img : ImageRef;            (* spacecraft image *)
  pathImg : ImageRef;        (* image of the spacecrafts path *)
}.

(* Gravitational constant (m^3 kg^-1 s^-2) *)
Definition gravitation : F := f64_const 6.67430e-11.
(* time delta (1 sec / refreshrate * seconds * minutes * hours) *)
Definition dt : F := f64_const (1.0 / 60.0 * 60 * 60 * 24).
(* x and y scaling to show the huge numbers on screen *)
Definition XScale : F := f64_const 0.1e-5.
Definition YScale : F := f64_const 0.1e-5.

Record Game := mkGame {
  screenWidth : Z;
  screenHeight : Z;
  planet : Planet;
  spacecraft : Spacecraft;
  time : F;
}.

(** Assignments to the fields the step writes. *)
Definition set_planet_position (g : Game) (p : Vector F) : Game :=
  mkGame (screenWidth g) (screenHeight g)
    (mkPlanet (p_mass (planet g)) p (p_velocity (planet g))
       (p_img (planet g)) (p_pathImg (planet g)))
    (spacecraft g) (time g).
Definition set_spacecraft_position (g : Game) (p : Vector F) : Game :=
  mkGame (screenWidth g) (screenHeight g) (planet g)
    (mkSpacecraft (mass (spacecraft g)) p (velocity (spacecraft g))
       (img (spacecraft g)) (pathImg (spacecraft g)))
    (time g).
Definition set_spacecraft_velocity (g : Game) (v : Vector F) : Game :=
  mkGame (screenWidth g) (screenHeight g) (planet g)
    (mkSpacecraft (mass (spacecraft g)) (position (spacecraft g)) v
       (img (spacecraft g)) (pathImg (spacecraft g)))
    (time g).
Definition set_time (g : Game) (t : F) : Game :=
  mkGame (screenWidth g) (screenHeight g) (planet g) (spacecraft g) t.

(** Lines 104-120 of [Update]: the force on the spacecraft at [pos] due
    to the planet at [planetPos]. *)
Definition gravityOnSpacecraft (g : Game) (pos planetPos : Vector F) : Vector F :=
  (* calculate distance vector and actual distance between spacecraft and planet *)
  let distanceVector := mkVector (X pos - X planetPos) (Y pos - Y planetPos) in
  let distance := Length distanceVector in
  (* calculate the gravitational force that is acting on the spacecraft *)
  let gravForce :=
    (gravitation * p_mass (planet g) * mass (spacecraft g)) / (distance * distance) in
  (* The vector points from the star to the spacecraft *)
  let forceDirection := Normalize distanceVector in
  mkVector (- gravForce * X forceDirection) (- gravForce * Y forceDirection).

(** func (g *Game) Update() error: the game after the call, the error
    returned, and the position accesses in program order. *)
Definition Update (g : Game) : Game * error * list (Event Body F) :=
  (* update position of planet *)
  let g := set_planet_position g
    (mkVector (X (p_position (planet g)) + X (p_velocity (planet g)) * dt)
              (Y (p_position (planet g)))) in
  let tr := [PositionWrite planet_id (p_position (planet g))] in
  let g := set_planet_position g
    (mkVector (X (p_position (planet g)))
              (Y (p_position (planet g)) + Y (p_velocity (planet g)) * dt)) in
  let tr := tr ++ [PositionWrite planet_id (p_position (planet g))] in
  (* get position of planet *)
  let planetPos := p_position (planet g) in
  (* pos and vel point at g.spacecraft.position and g.spacecraft.velocity *)
  let tr := tr ++ [ForceRead spacecraft_id planet_id (position (spacecraft g)) planetPos] in
  let force := gravityOnSpacecraft g (position (spacecraft g)) planetPos in
  (* dv = F/m * dt *)
  let g := set_spacecraft_velocity g
    (mkVector (X (velocity (spacecraft g)) + (X force / mass (spacecraft g)) * dt)
              (Y (velocity (spacecraft g)))) in
  let g := set_spacecraft_velocity g
    (mkVector (X (velocity (spacecraft g)))
              (Y (velocity (spacecraft g)) + (Y force / mass (spacecraft g)) * dt)) in
  (* dx = v*dt *)
  let g := set_spacecraft_position g
    (mkVector (X (position (spacecraft g)) + X (velocity (spacecraft g)) * dt)
              (Y (position (spacecraft g)))) in
  let tr := tr ++ [PositionWrite spacecraft_id (position (spacecraft g))] in
  let g := set_spacecraft_position g
    (mkVector (X (position (spacecraft g)))
              (Y (position (spacecraft g)) + Y (velocity (spacecraft g)) * dt)) in
  let tr := tr ++ [PositionWrite spacecraft_id (position (spacecraft g))] in
  let g := set_time g (time g + dt) in
  (g, nilError, tr).

(** The positions of the two bodies. *)
Definition position_of (g : Game) (b : Body) : option (Vector F) :=
  Some match b with
       | planet_id => p_position (planet g)
       | spacecraft_id => position (spacecraft g)
       end.

(** Total momentum, the sum over the bodies of mass times velocity. *)
Definition momentum (g : Game) : Vector F :=
  mkVector
    (p_mass (planet g) * X (p_velocity (planet g))
     + mass (spacecraft g) * X (velocity (spacecraft g)))
    (p_mass (planet g) * Y (p_velocity (planet g))
     + mass (spacecraft g) * Y (velocity (spacecraft g))).

(** What the physics is about: masses, positions, velocities, time. *)
Definition view (g : Game) : (F * Vector F * Vector F) * (F * Vector F * Vector F) * F :=
  ((p_mass (planet g), p_position (planet g), p_velocity (planet g)),
   (mass (spacecraft g), position (spacecraft g), velocity (spacecraft g)),
   time g).
End Code.

Arguments Planet F : clear implicits.
Arguments Spacecraft F : clear implicits.
Arguments Game F : clear implicits.

(** func NewGame() *Game, in binary64. The 2x2 white image is handle 0. *)
Definition NewGame : Game float :=
  let img := Some 0%nat in
  mkGame 0 0
    (mkPlanet (f64_const 6.417e23) (mkVector (f64_const 0) (f64_const 0))
       (mkVector (f64_const 0) (f64_const (-10))) img None)
    (mkSpacecraft (f64_const 815) (mkVector (f64_const 1e8) (f64_const 1e8))
       (mkVector (f64_const 0) (f64_const (-700))) img None)
    (f64_const 0).

End TwoBody.

(** ** The N-body variant: a slice of pointers to space objects *)

Module NBody.

(** A [*SpaceObject] is the address of an object in the heap.  The nil
    pointer, like any address that holds no object, cannot be
    dereferenced. *)
Definition loc := nat.

Section Code.
Context `{Float64 F}.
Local Open Scope f64_scope.

Record SpaceObject := mkSpaceObject {
  name : string;
  mass : F;                     (* mass of the object in kg *)
  position : Vector F;          (* position vector of the object in m *)
  scaledPosition : Vector F;    (* scaled position vector of the object in pixel *)
  velocity : Vector F;          (* velocity vector of the object in m/s *)
  img : ImageRef;               (* object image *)
  pathImg : ImageRef;           (* image of the object path *)
  color : Color;                (* color of object and object path *)
}.

(* Gravitational constant (m^3 kg^-1 s^-2) *)
Definition gravitation : F := f64_const 6.67430e-11.
(* time delta (1 sec / refreshrate * seconds * minutes * hours) *)
Definition dt : F := f64_const (1.0 / 60.0 * 60 * 60 * 24 * 30).
(* x and y scaling to show the huge numbers on screen *)
Definition XScale : F := f64_const 0.1e-6.
Definition YScale : F := f64_const 0.1e-6.

Record Game := mkGame {
  screenWidth : Z;
  screenHeight : Z;
  spaceObjects : list loc;
  time : F;
}.

(** The machine state: the [Game] the receiver points at, the heap of
    space objects, and the ghost trace of position accesses. *)
Record State := mkState {
  game : Game;
  heap : gmap loc SpaceObject;
  trace : list (Event loc F);
}.

(** Statements run in a state monad that fails ([None]) when the program
    panics on a pointer without an object. *)
Definition M (A : Type) : Type := State → option (A * State).

#[export] Instance M_ret : MRet M := λ A a s, Some (a, s).
#[export] Instance M_bind : MBind M := λ A B k m s,
  match m s with Some (a, s') => k a s' | None => None end.

(* *so *)
Definition load (so : loc) : M SpaceObject :=
  λ s, match heap s !! so with Some o => Some (o, s) | None => None end.
(* *so = o *)
Definition store (so : loc) (o : SpaceObject) : M unit :=
  λ s, Some (tt, mkState (game s) (<[so := o]> (heap s)) (trace s)).
(* *g *)
Definition getGame : M Game := λ s, Some (game s, s).
Definition putGame (g : Game) : M unit :=
  λ s, Some (tt, mkState g (heap s) (trace s)).
Definition emit (e : Event loc F) : M unit :=
  λ s, Some (tt, mkState (game s) (heap s) (trace s ++ [e])).

(** for i, x := range l { body } *)
Fixpoint forRange {A} (body : nat → A → M unit) (i : nat) (l : list A) : M unit :=
  match l with
  | [] => mret tt
  | x :: l' => body i x ;; forRange body (S i) l'
  end.

Definition set_velocity (o : SpaceObject) (v : Vector F) : SpaceObject :=
  mkSpaceObject (name o) (mass o) (position o) (scaledPosition o) v
    (img o) (pathImg o) (color o).
Definition set_position (o : SpaceObject) (p : Vector F) : SpaceObject :=
  mkSpaceObject (name o) (mass o) p (scaledPosition o) (velocity o)
    (img o) (pathImg o) (color o).
Definition set_scaledPosition (o : SpaceObject) (p : Vector F) : SpaceObject :=
  mkSpaceObject (name o) (mass o) (position o) p (velocity o)
    (img o) (pathImg o) (color o).

(** func (so *SpaceObject) UpdateVelocity(force Vector): dv = F/m * dt *)
Definition UpdateVelocity (so : loc) (force : Vector F) : M unit :=
  o ← load so;
  store so (set_velocity o
    (mkVector (X (velocity o) + (X force / mass o) * dt) (Y (velocity o))));;
  o ← load so;
  store so (set_velocity o
    (mkVector (X (velocity o)) (Y (velocity o) + (Y force / mass o) * dt))).

(** func (so *SpaceObject) UpdatePosition(): dx = v*dt *)
Definition UpdatePosition (so : loc) : M unit :=
  o ← load so;
  let o' := set_position o
    (mkVector (X (position o) + X (velocity o) * dt) (Y (position o))) in
  store so o';;
  emit (PositionWrite so (position o'));;
  o ← load so;
  let o' := set_position o
    (mkVector (X (position o)) (Y (position o) + Y (velocity o) * dt)) in
  store so o';;
  emit (PositionWrite so (position o')).

(** func calculateGravitationalForce(so1, so2 SpaceObject) Vector: the
    force [so2] puts on [so1].  The arguments are copies of the objects. *)
Definition calculateGravitationalForce (so1 so2 : SpaceObject) : Vector F :=
  (* The vector points from so2 to so1 *)
  let distanceVector :=
    mkVector (X (position so1) - X (position so2)) (Y (position so1) - Y (position so2)) in
  let distance := Length distanceVector in
  (* calculate the gravitational force that is acting on so1 *)
  let gravForce := (gravitation * mass so2 * mass so1) / (distance * distance) in
  let forceDirection := Normalize distanceVector in
  (* negative signs: the force points towards so2 *)
  mkVector (- gravForce * X forceDirection) (- gravForce * Y forceDirection).

(** The first loop nest of [Update]: every object against every other. *)
Definition updateVelocities : M unit :=
  g ← getGame;
  forRange (λ i so1,
    g ← getGame;
    forRange (λ j so2,
      (* skip if we would compare the same object *)
      if decide (j = i) then mret tt else
      (* calculate the force so2 is putting on so1 and update the
         velocity this force applies *)
      a ← load so1;
      b ← load so2;
      emit (ForceRead so1 so2 (position a) (position b));;
      UpdateVelocity so1 (calculateGravitationalForce a b))
    0%nat (spaceObjects g))
  0%nat (spaceObjects g).

(** The second loop of [Update]. *)
Definition updatePositions : M unit :=
  g ← getGame;
  forRange (λ _ so,
    (* Update position using the spaceobjects velocity *)
    UpdatePosition so;;
    (* scale current postion to window *)
    o ← load so;
    g ← getGame;
    store so (set_scaledPosition o
      (Translate (Scale (position o) XScale YScale)
         (float64 (screenWidth g ÷ 2)) (float64 (screenHeight g ÷ 2)))))
  0%nat (spaceObjects g).

(** func (g *Game) Update() error *)
Definition Update : M error :=
  (* iterate over every spaceobject and calculate how it is influenced
     by all other objects *)
  updateVelocities;;
  (* after updating the velocites, we now update all positions *)
  updatePositions;;
  g ← getGame;
  putGame (mkGame (screenWidth g) (screenHeight g) (spaceObjects g) (time g + dt));;
  mret nilError.

(** [n] calls of [Update], as the host loop makes them. *)
Fixpoint Updates (n : nat) : M error :=
  match n with
  | O => mret nilError
  | S n' => Update ;; Updates n'
  end.

(** *** The step, object by object

    What the methods and loop bodies above do to one object, as
    functions on the object; the lemmas below relate them to the code. *)

(* the velocity [v] of a mass [m] after the force acted for dt *)
Definition kick (m : F) (v force : Vector F) : Vector F :=
  mkVector (X v + (X force / m) * dt) (Y v + (Y force / m) * dt).

(* the position [p] after moving with velocity [v] for dt *)
Definition drift (p v : Vector F) : Vector F :=
  mkVector (X p + X v * dt) (Y p + Y v * dt).

(* the object after so.UpdateVelocity(force) *)
Definition accelerate (o : SpaceObject) (force : Vector F) : SpaceObject :=
  set_velocity o (kick (mass o) (velocity o) force).

(* the object after so.UpdatePosition() *)
Definition move (o : SpaceObject) : SpaceObject :=
  set_position o (drift (position o) (velocity o)).

(* the object after the assignment to so.scaledPosition *)
Definition rescale (g : Game) (o : SpaceObject) : SpaceObject :=
  set_scaledPosition o
    (Translate (Scale (position o) XScale YScale)
       (float64 (screenWidth g ÷ 2)) (float64 (screenHeight g ÷ 2))).

(** The elements of [l] at the indices other than [i]. *)
Definition others {A} (i : nat) (l : list A) : list A :=
  take i l ++ drop (S i) l.

(** The object [o] after the inner loop: the forces the objects [bs]
    put on it, each applied to its velocity in turn. *)
Definition attract (o : SpaceObject) (bs : list SpaceObject) : SpaceObject :=
  foldl accelerate o (calculateGravitationalForce o <$> bs).

(** The objects after the first loop nest and after the whole step. *)
Definition attractAll (objs : list SpaceObject) : list SpaceObject :=
  imap (λ i o, attract o (others i objs)) objs.
Definition stepAll (g : Game) (objs : list SpaceObject) : list SpaceObject :=
  (λ o, rescale g (move o)) <$> attractAll objs.

(** The position accesses of the two phases, for the objects [objs] at
    the addresses [ptrs]. *)
Definition forceReads (ptrs : list loc) (objs : list SpaceObject) : list (Event loc F) :=
  concat (imap (λ i p,
      (λ q, ForceRead p.1 q.1 (position p.2) (position q.2))
        <$> others i (zip ptrs objs))
    (zip ptrs objs)).
Definition positionWrites (ptrs : list loc) (objs : list SpaceObject) : list (Event loc F) :=
  concat ((λ p,
      [PositionWrite p.1
         (mkVector (X (position p.2) + X (velocity p.2) * dt) (Y (position p.2)));
       PositionWrite p.1 (position (move p.2))])
    <$> zip ptrs objs).

(** The body of the inner loop below the self test. *)
Definition pull (so1 so2 : loc) : M () :=
  a ← load so1;
  b ← load so2;
  emit (ForceRead so1 so2 (position a) (position b));;
  UpdateVelocity so1 (calculateGravitationalForce a b).

(** [holds h so o0]: the address [so] holds an object with the position
    and the mass of [o0]. *)
Definition holds (h : gmap loc SpaceObject) (so : loc) (o0 : SpaceObject) : Prop :=
  ∃ o, h !! so = Some o ∧ position o = position o0 ∧ mass o = mass o0.

(** The objects of the world, in slice order; [None] when a pointer of
    the slice has no object. *)
Definition bodies (s : State) : option (list SpaceObject) :=
  mapM (λ so, heap s !! so) (spaceObjects (game s)).

(** A world: the slice holds pairwise distinct pointers to objects, as
    [NewGame] builds it. *)
Definition world (s : State) : Prop :=
  NoDup (spaceObjects (game s)) ∧ is_Some (bodies s).

(** What the physics is about: masses, positions, velocities, time. *)
Definition physics (o : SpaceObject) : F * Vector F * Vector F :=
  (mass o, position o, velocity o).
Definition view (s : State) : option (list (F * Vector F * Vector F)) * F :=
  (fmap (M:=option) (fmap (M:=list) physics) (bodies s), time (game s)).

(** Total momentum, the sum over the bodies of mass times velocity. *)
Definition momentum (objs : list SpaceObject) : Vector F :=
  foldr (λ o p, mkVector (mass o * X (velocity o) + X p) (mass o * Y (velocity o) + Y p))
    (mkVector (f64_const 0) (f64_const 0)) objs.
End Code.

Arguments SpaceObject F : clear implicits.
Arguments Game F : clear implicits.
Arguments State F : clear implicits.

(** func NewGame() *Game, in binary64: the three objects are allocated at
    addresses 0, 1 and 2; image handles stand for the 2x2 images. *)
Definition Earth : SpaceObject float :=
  mkSpaceObject "Earth" (f64_const 5.9722e24)
    (mkVector (f64_const 0) (f64_const 0)) (mkVector (f64_const 0) (f64_const 0))
    (mkVector (f64_const 0) (f64_const (-20))) (Some 0%nat) None (RGBA 255 0 0 1).
Definition Moon : SpaceObject float :=
  mkSpaceObject "Moon" (f64_const 5.9722e22)
    (mkVector (f64_const 5e9) (f64_const 0)) (mkVector (f64_const 0) (f64_const 0))
    (mkVector (f64_const 0) (f64_const (-100))) (Some 1%nat) None (RGBA 0 255 0 1).
Definition Spacecraft : SpaceObject float :=
  mkSpaceObject "Spacecraft" (f64_const 5.9722e22)
    (mkVector (f64_const (-5e9)) (f64_const 1e9)) (mkVector (f64_const 0) (f64_const 0))
    (mkVector (f64_const (-10)) (f64_const 150)) (Some 2%nat) None (RGBA 0 0 255 1).
Definition NewGame : State float :=
  mkState
    (mkGame 0 0 [0; 1; 2]%nat (f64_const 0))
    (<[0%nat := Earth]> (<[1%nat := Moon]> (<[2%nat := Spacecraft]> ∅)))
    [].

End NBody.

(** ** The strict two-phase step

    The formulation the N-body loop is compared with: first the net force on
    every object, each a sum of the pairwise forces computed from the
    positions before the step; then every velocity; then every position. *)

Module TwoPhase.
Import NBody.

Section Spec.
Context `{Float64 F}.
Local Open Scope f64_scope.

Definition zero : Vector F := mkVector (f64_const 0) (f64_const 0).
Definition add (u v : Vector F) : Vector F := mkVector (X u + X v) (Y u + Y v).

(** The sum of the forces the objects [bs] put on [target]. *)
Definition NetForceOn (target : SpaceObject F) (bs : list (SpaceObject F)) : Vector F :=
  foldl (λ acc b, add acc (calculateGravitationalForce target b)) zero bs.

Definition Step (objs : list (SpaceObject F)) : list (SpaceObject F) :=
  (* all net forces, from the positions before the step *)
  let forces := imap (λ i o, NetForceOn o (others i objs)) objs in
  (* then all velocities: v' = v + (F/m)*dt *)
  let objs1 := zip_with accelerate objs forces in
  (* then all positions: p' = p + v'*dt *)
  move <$> objs1.
End Spec.
End TwoPhase.

(** ** Concrete worlds *)

Module Worlds.
Import NBody.

(** [NewGame] after the window was laid out at 1080x720 and the objects
  were renamed: the same masses, positions, velocities and time. *)
Definition NewGameResized : State float :=
mkState
  (mkGame 1080 720 [0; 1; 2]%nat (f64_const 0))
  ((λ o, mkSpaceObject "renamed" (mass o) (position o)
           (mkVector (f64_const 540) (f64_const 360)) (velocity o)
           None None White) <$> heap NewGame)
  [].

(** A point mass at rest, in binary64. *)
Definition pointMass (m x y : Q) : SpaceObject float :=
mkSpaceObject "" (f64_const m) (mkVector (f64_const x) (f64_const y))
  (mkVector (f64_const 0) (f64_const 0)) (mkVector (f64_const 0) (f64_const 0))
  None None nilColor.

(** The two-body game with a planet of 6e24 kg and a spacecraft of 7e22 kg,
  1e8 m apart on the x axis, both at rest. *)
Definition heavyPair : TwoBody.Game float :=
TwoBody.mkGame 0 0
  (TwoBody.mkPlanet (f64_const 6e24) (mkVector (f64_const 0) (f64_const 0))
     (mkVector (f64_const 0) (f64_const 0)) None None)
  (TwoBody.mkSpacecraft (f64_const 7e22) (mkVector (f64_const 1e8) (f64_const 0))
     (mkVector (f64_const 0) (f64_const 0)) None None)
  (f64_const 0).

(** Two objects in exact arithmetic: masses 3 and 7 at (0,0) and (3,4). *)
Definition exactObject (m x y vx vy : R) : SpaceObject R :=
mkSpaceObject "" m (mkVector x y) (mkVector 0%R 0%R) (mkVector vx vy)
  None None nilColor.
Definition exactA : SpaceObject R := exactObject 3 0 0 1 0.
Definition exactB : SpaceObject R := exactObject 7 3 4 0 (-1).
Definition exactPair : State R :=
mkState (mkGame 0 0 [0; 1]%nat 0%R)
  (<[0%nat := exactA]> (<[1%nat := exactB]> ∅)) [].
End Worlds.

(** ** The host's other calls

    The host (ebiten) calls [Layout] with the size of the window and
    [Update] once per tick. *)

Module Host.
Import NBody.

Section Code.
Context `{Float64 F}.

(** func (g *Game) Layout(outsideWidth, outsideHeight int) (int, int) *)
Definition Layout (outsideWidth outsideHeight : Z) : M (F:=F) (Z * Z) :=
  g ← getGame;
  putGame (mkGame outsideWidth (screenHeight g) (spaceObjects g) (time g));;
  g ← getGame;
  putGame (mkGame (screenWidth g) outsideHeight (spaceObjects g) (time g));;
  mret (outsideWidth, outsideHeight).

(** The body of the second loop of [Update]. *)
Definition place (so : loc) : M (F:=F) () :=
  UpdatePosition so;;
  o ← load so;
  g ← getGame;
  store so (set_scaledPosition o
    (Translate (Scale (position o) XScale YScale)
       (float64 (screenWidth g ÷ 2)) (float64 (screenHeight g ÷ 2)))).

(** Every pointer of the slice holds an object. *)
Definition allocated (s : State F) : Prop :=
  ∀ so, so ∈ spaceObjects (game s) → is_Some (heap s !! so).

(** What every statement of the step keeps, whatever the slice is: the
    game's fields other than the time, and the set of allocated objects. *)
Definition kept (s0 s : State F) : Prop :=
  spaceObjects (game s) = spaceObjects (game s0)
  ∧ screenWidth (game s) = screenWidth (game s0)
  ∧ screenHeight (game s) = screenHeight (game s0)
  ∧ dom (heap s) = dom (heap s0).
End Code.
End Host.

Module TwoBodyHost.
Import TwoBody.

Section Code.
Context `{Float64 F}.

(** func (g *Game) Layout(outsideWidth, outsideHeight int) (int, int) *)
Definition Layout (g : Game F) (outsideWidth outsideHeight : Z) : Game F * (Z * Z) :=
  let g := mkGame outsideWidth (screenHeight g) (planet g) (spacecraft g) (time g) in
  let g := mkGame (screenWidth g) outsideHeight (planet g) (spacecraft g) (time g) in
  (g, (outsideWidth, outsideHeight)).

(** [n] calls of [Update], as the host loop makes them. *)
Fixpoint Updates (n : nat) (g : Game F) : Game F :=
  match n with
  | O => g
  | S n' => Updates n' (Update g).1.1
  end.
End Code.
End TwoBodyHost.

(** ** A random space object *)

Module Random.
Import NBody.

Section Code.
Context `{Float64 F}.
Local Open Scope f64_scope.

(** What the calls of math/rand return, in the order the function makes
    them: [rand.Intn(len(names))], five times [rand.Float64()], three times
    [rand.Int()]. *)
Record Draws := mkDraws {
  nameDraw : Z;
  massDraw : F;
  xDraw : F;
  yDraw : F;
  vxDraw : F;
  vyDraw : F;
  rDraw : Z;
  gDraw : Z;
  bDraw : Z;
}.

(** What [fmt.Println] is called with. *)
Inductive Printed :=
  | PrintFloat (x : F)
  | PrintVector (v : Vector F).

Definition names : list string :=
  ["Mercury"; "Venus"; "Earth"; "Mars"; "Jupiter"; "Saturn"; "Uranus";
   "Neptune"; "Pluto"]%string.

(* uint8(n) for an int n *)
Definition uint8 (n : Z) : Z := n `mod` 256.

(* l[i]; an index out of range panics *)
Definition index (l : list string) (i : Z) : option string :=
  if decide (0 ≤ i)%Z then l !! Z.to_nat i else None.

(** func createEmptyColoredImage(width, height int, color color.Color)
    *ebiten.Image: the handle [newImage] of the image the library creates
    and fills. *)
Definition createEmptyColoredImage (newImage : nat) (width height : Z) (c : Color) : ImageRef :=
  Some newImage.

(** func CreateRandomSpaceObject() *SpaceObject: the object the returned
    pointer holds and the values printed, or [None] for a panic. *)
Definition CreateRandomSpaceObject (d : Draws) (newImage : nat) : option (SpaceObject F * list Printed) :=
  name ← index names (nameDraw d);
  (* generate a random mass *)
  let mass := massDraw d * f64_const 6.417e25 in
  (* generate a random starting position in [-1e8*Scale, 1e8*Scale] *)
  let position := mkVector
    ((xDraw d * f64_const 2 * f64_const 1e8 - f64_const 1e8) * XScale)
    ((yDraw d * f64_const 2 * f64_const 1e8 - f64_const 1e8) * YScale) in
  (* generate a random starting velocity *)
  let velocity := mkVector
    (vxDraw d * f64_const 7000 - f64_const 3500)
    (vyDraw d * f64_const 7000 - f64_const 3500) in
  (* generate a random color for imgage and path *)
  let r := uint8 (rDraw d) in
  let g := uint8 (gDraw d) in
  let b := uint8 (bDraw d) in
  let color := RGBA r g b 1 in
  Some (mkSpaceObject name mass position (mkVector (f64_const 0) (f64_const 0))
          velocity (createEmptyColoredImage newImage 2 2 color) None color,
        [PrintFloat mass; PrintVector position]).
End Code.

Arguments Draws F : clear implicits.
Arguments Printed F : clear implicits.
End Random.

(** ** Special values of binary64 *)

Module Binary64Values.
Import NBody.

Definition is_zero (x : spec_float) : bool :=
  match x with S754_zero _ => true | _ => false end.

(** The sign bit of a binary64 value; not-a-number has none. *)
Definition sign_of (x : spec_float) : option bool :=
  match x with
  | S754_zero s | S754_infinity s | S754_finite s _ _ => Some s
  | S754_nan => None
  end.

(** [x] is not negative: its sign bit is clear, or it is not-a-number. *)
Definition unsigned (x : spec_float) : Prop := sign_of x ≠ Some true.

(** [y] is the negation of [x], up to the sign of a zero. *)
Definition negated (x y : spec_float) : Prop :=
  y = SFopp x ∨ (is_zero x = true ∧ is_zero y = true).

(** The vector whose components are not-a-number. *)
Definition nanV : Vector float := mkVector nan nan.

(** An object that is lost: its velocity, position and screen position are
    not-a-number. *)
Definition lost (o : SpaceObject float) : Prop :=
  velocity o = nanV ∧ position o = nanV ∧ scaledPosition o = nanV.
End Binary64Values.

(** ** More concrete worlds *)

Module MoreWorlds.
Import NBody Worlds.

(** [NewGame] with the third pointer of the slice replaced by an address
    that holds no object. *)
Definition dangling : State float :=
  mkState (mkGame 0 0 [0; 1; 7]%nat (f64_const 0)) (heap NewGame) [].

(** Two point masses at the same place. *)
Definition collision : State float :=
  mkState (mkGame 0 0 [0; 1]%nat (f64_const 0))
    (<[0%nat := pointMass 3 1 2]> (<[1%nat := pointMass 7 1 2]> ∅)) [].

(** A slice that lists the Earth twice. *)
Definition aliased : State float :=
  mkState (mkGame 0 0 [0; 0]%nat (f64_const 0)) (<[0%nat := Earth]> ∅) [].

(** Two masses of 1e-100 kg at rest, 1e-170 m apart: the square of their
    distance underflows. *)
Definition tinyA : SpaceObject float := pointMass 1e-100 0 0.
Definition tinyB : SpaceObject float := pointMass 1e-100 1e-170 0.
Definition tinyPair : State float :=
  mkState (mkGame 0 0 [0; 1]%nat (f64_const 0))
    (<[0%nat := tinyA]> (<[1%nat := tinyB]> ∅)) [].

(** Two masses of 1e160 kg: the product of the masses overflows. *)
Definition bigA : SpaceObject float := pointMass 1e160 0 0.
Definition bigB : SpaceObject float := pointMass 1e160 3e10 4e10.

(** Two objects of equal mass at rest. *)
Definition twinA : SpaceObject float := pointMass 5e22 0 0.
Definition twinB : SpaceObject float := pointMass 5e22 3e8 4e8.
Definition twins : State float :=
  mkState (mkGame 0 0 [0; 1]%nat (f64_const 0))
    (<[0%nat := twinA]> (<[1%nat := twinB]> ∅)) [].

(** Some draws of the random source, in binary64. *)
Definition someDraws : Random.Draws float :=
  Random.mkDraws 2 0.5%float 0.5%float 0.25%float 0.5%float 0.75%float 300 255 0.
End MoreWorlds.

(** * Facts about the N-body step *)

Module NBodyFacts.
Import NBody.

Section Run.
Context `{Float64 F}.
Implicit Types (s : State F) (o a b : SpaceObject F) (so : loc).
Implicit Types (ptrs : list loc) (objs bs : list (SpaceObject F)).

(** *** Running the monad *)

Lemma bind_run {A B} (m : M A) (k : A → M B) s x s' :
  m s = Some (x, s') → (m ≫= k) s = k x s'.
Proof. intros E. unfold mbind, M_bind. by rewrite E. Qed.

Lemma load_run s so o : heap s !! so = Some o → load so s = Some (o, s).
Proof. intros E. unfold load. by rewrite E. Qed.

Lemma state_eta s : mkState (game s) (heap s) (trace s) = s.
Proof. by destruct s. Qed.

(** *** Range loops *)

Lemma forRange_app {A} (body : nat → A → M (F:=F) ()) i (l1 l2 : list A) s :
  forRange body i (l1 ++ l2) s
  = (forRange body i l1;; forRange body (i + length l1) l2) s.
Proof.
  revert i s. induction l1 as [|x l1 IH]; intros i s; simpl.
  - by rewrite Nat.add_0_r.
  - unfold mbind, M_bind. destruct (body i x s) as [[[] s']|]; [|done].
    rewrite IH. unfold mbind, M_bind.
    by replace (i + S (length l1))%nat with (S i + length l1)%nat by lia.
Qed.

Lemma forRange_ext {A} (body body' : nat → A → M (F:=F) ()) i i' (l : list A) s :
  (∀ k x s, l !! k = Some x → body (i + k)%nat x s = body' (i' + k)%nat x s) →
  forRange body i l s = forRange body' i' l s.
Proof.
  revert i i' s. induction l as [|x l IH]; intros i i' s Hb; [done|]. simpl.
  unfold mbind, M_bind.
  specialize (Hb 0%nat x s eq_refl) as Hx. rewrite !Nat.add_0_r in Hx. rewrite Hx.
  destruct (body' i' x s) as [[[] s']|]; [|done].
  apply IH. intros k y s'' Hk.
  replace (S i + k)%nat with (i + S k)%nat by lia.
  replace (S i' + k)%nat with (i' + S k)%nat by lia. by apply Hb.
Qed.

(** A loop keeps an invariant indexed by the number of iterations done,
    and does not panic when its body does not. *)
Lemma forRange_inv {A} (I : nat → State F → Prop) (body : nat → A → M ()) (l : list A) :
  (∀ k x s, l !! k = Some x → I k s →
     ∃ s', body k x s = Some ((), s') ∧ I (S k) s') →
  ∀ s, I 0%nat s → ∃ s', forRange body 0 l s = Some ((), s') ∧ I (length l) s'.
Proof.
  intros Hbody.
  cut (∀ l2 l1 s, l = l1 ++ l2 → I (length l1) s →
         ∃ s', forRange body (length l1) l2 s = Some ((), s') ∧ I (length l) s').
  { intros Hcut s Hs. by apply (Hcut l [] s). }
  induction l2 as [|x l2 IH]; intros l1 s -> Hs.
  - exists s. by rewrite app_nil_r.
  - destruct (Hbody (length l1) x s) as (s1 & E1 & H1); [|done|].
    { by rewrite lookup_app_r, Nat.sub_diag by lia. }
    destruct (IH (l1 ++ [x]) s1) as (s2 & E2 & H2).
    { by rewrite <- app_assoc. }
    { by rewrite length_app, Nat.add_1_r. }
    exists s2. split; [|done].
    simpl. rewrite (bind_run _ _ _ _ _ E1).
    by rewrite length_app, Nat.add_1_r in E2.
Qed.

(** *** The methods *)

Lemma UpdateVelocity_run s so o force :
  heap s !! so = Some o →
  UpdateVelocity so force s
  = Some ((), mkState (game s) (<[so := accelerate o force]> (heap s)) (trace s)).
Proof.
  intros E. unfold UpdateVelocity, mbind, M_bind, load, store. simpl.
  rewrite E. simpl. rewrite lookup_insert_eq. simpl.
  by rewrite insert_insert_eq.
Qed.

Lemma UpdatePosition_run s so o :
  heap s !! so = Some o →
  UpdatePosition so s
  = Some ((), mkState (game s) (<[so := move o]> (heap s))
                (trace s ++ positionWrites [so] [o])).
Proof.
  intros E. unfold UpdatePosition, mbind, M_bind, load, store, emit. simpl.
  rewrite E. simpl. rewrite lookup_insert_eq. simpl.
  by rewrite insert_insert_eq, <- app_assoc.
Qed.

(** The force depends on the positions and the masses only. *)
Lemma force_physics a a' b b' :
  position a = position a' → mass a = mass a' →
  position b = position b' → mass b = mass b' →
  calculateGravitationalForce a b = calculateGravitationalForce a' b'.
Proof. unfold calculateGravitationalForce. by intros -> -> -> ->. Qed.

Lemma foldl_accelerate_physics o fs :
  position (foldl accelerate o fs) = position o
  ∧ mass (foldl accelerate o fs) = mass o.
Proof.
  revert o. induction fs as [|f fs IH]; intros o; [done|]. simpl.
  by destruct (IH (accelerate o f)) as [-> ->].
Qed.

(** Objects at other addresses are not touched by a store. *)
Lemma Forall2_holds_insert_notin (h : gmap loc (SpaceObject F)) so o l bs :
  Forall2 (holds h) l bs → so ∉ l → Forall2 (holds (<[so := o]> h)) l bs.
Proof.
  induction 1 as [|so2 b l bs (b' & Hb & ? & ?) _ IH]; intros Hnot; [constructor|].
  apply not_elem_of_cons in Hnot as [Hne Hnot]. constructor; [|by apply IH].
  exists b'. by rewrite lookup_insert_ne.
Qed.

(** *** The inner loop *)

Lemma pull_run s so1 so2 a b :
  heap s !! so1 = Some a → heap s !! so2 = Some b →
  pull so1 so2 s
  = Some ((), mkState (game s)
                (<[so1 := accelerate a (calculateGravitationalForce a b)]> (heap s))
                (trace s ++ [ForceRead so1 so2 (position a) (position b)])).
Proof.
  intros Ha Hb. unfold pull.
  rewrite (bind_run _ _ _ _ _ (load_run _ _ _ Ha)).
  rewrite (bind_run _ _ _ _ _ (load_run _ _ _ Hb)).
  unfold mbind, M_bind, emit. by rewrite (UpdateVelocity_run _ so1 a).
Qed.

Lemma pull_loop_run so1 a0 l bs : ∀ j s a,
  Forall2 (holds (heap s)) l bs →
  so1 ∉ l →
  heap s !! so1 = Some a →
  position a = position a0 → mass a = mass a0 →
  forRange (λ _, pull so1) j l s
  = Some ((), mkState (game s)
                (<[so1 := foldl accelerate a (calculateGravitationalForce a0 <$> bs)]> (heap s))
                (trace s ++ ((λ q, ForceRead so1 q.1 (position a0) (position q.2)) <$> zip l bs))).
Proof.
  induction l as [|so2 l IH] in bs |- *; intros j s a Hl Hnot Ha Hp Hm.
  - apply Forall2_nil_inv_l in Hl as ->. simpl.
    by rewrite insert_id, app_nil_r, state_eta.
  - apply Forall2_cons_inv_l in Hl as (b0 & bs' & (b & Hb & Hpb & Hmb) & Hl & ->).
    apply not_elem_of_cons in Hnot as [Hne Hnot].
    cbn [forRange]. rewrite (bind_run _ _ _ _ _ (pull_run _ _ _ _ _ Ha Hb)).
    rewrite (force_physics a a0 b b0 Hp Hm Hpb Hmb).
    erewrite IH; simpl.
    + by rewrite insert_insert_eq, <- app_assoc, Hp, Hpb.
    + by apply Forall2_holds_insert_notin.
    + done.
    + by rewrite lookup_insert_eq.
    + done.
    + done.
Qed.

(** The self test of the inner loop leaves out the index [i] and
    nothing else. *)
Lemma inner_skip so1 (l1 l2 : list loc) s :
  forRange (λ j so2, if decide (j = length l1) then mret () else pull so1 so2)
    0 (l1 ++ so1 :: l2) s
  = forRange (λ _, pull so1) 0 (l1 ++ l2) s.
Proof.
  rewrite !forRange_app. unfold mbind, M_bind.
  rewrite (forRange_ext _ (λ _, pull so1) 0 0 l1).
  2:{ intros k x s' Hk. apply lookup_lt_Some in Hk.
      simpl. by rewrite decide_False by lia. }
  destruct (forRange _ 0 l1 s) as [[[] s']|]; [|done].
  cbn [forRange]. unfold mbind, M_bind. simpl.
  rewrite decide_True by done. unfold mret, M_ret.
  apply forRange_ext. intros k x s'' Hk.
  by rewrite decide_False by lia.
Qed.

Lemma others_zip {A B} i (l : list A) (k : list B) :
  length l = length k →
  others i (zip l k) = zip (others i l) (others i k).
Proof.
  intros Hlen. unfold others.
  rewrite zip_with_app by (rewrite !length_take; lia).
  by rewrite zip_with_take, zip_with_drop.
Qed.

Lemma others_Forall2 {A B} (P : A → B → Prop) i l k :
  Forall2 P l k → Forall2 P (others i l) (others i k).
Proof. intros HP. apply Forall2_app; [by apply Forall2_take|by apply Forall2_drop]. Qed.

Lemma inner_loop_run ptrs objs i so1 a s :
  NoDup ptrs →
  Forall2 (holds (heap s)) ptrs objs →
  ptrs !! i = Some so1 → heap s !! so1 = Some a → objs !! i = Some a →
  forRange (λ j so2, if decide (j = i) then mret () else pull so1 so2) 0 ptrs s
  = Some ((), mkState (game s) (<[so1 := attract a (others i objs)]> (heap s))
                (trace s ++ ((λ q, ForceRead so1 q.1 (position a) (position q.2))
                              <$> others i (zip ptrs objs)))).
Proof.
  intros Hnd Hall Hi Ha Hoi.
  pose proof (take_drop_middle _ _ _ Hi) as Hsplit.
  assert (length (take i ptrs) = i) as Hlen.
  { apply length_take_le. apply lookup_lt_Some in Hi. lia. }
  transitivity (forRange (λ _, pull so1) 0 (others i ptrs) s).
  { rewrite <- (inner_skip so1 (take i ptrs) (drop (S i) ptrs)).
    by rewrite Hlen, Hsplit. }
  rewrite others_zip by (by eapply Forall2_length).
  apply pull_loop_run; try done.
  - by apply others_Forall2.
  - rewrite <- Hsplit in Hnd. apply NoDup_app in Hnd as (_ & Hnd1 & Hnd2).
    apply NoDup_cons in Hnd2 as [Hnd2 _].
    unfold others. rewrite not_elem_of_app. split; [|done].
    intros Hin. apply (Hnd1 so1 Hin). by left.
Qed.

(** *** The first loop nest *)

Lemma attract_physics o bs :
  position (attract o bs) = position o ∧ mass (attract o bs) = mass o.
Proof. apply foldl_accelerate_physics. Qed.

Lemma bodies_Some s objs :
  bodies s = Some objs ↔
  Forall2 (λ so o, heap s !! so = Some o) (spaceObjects (game s)) objs.
Proof. apply mapM_Some. Qed.

(** A loop over the slice whose [k]-th iteration replaces the object at
    the [k]-th pointer by [f k] of it, and adds the events [ev k]. *)
Lemma slice_loop_run (f : nat → SpaceObject F → SpaceObject F)
    (ev : nat → loc → SpaceObject F → list (Event loc F))
    (body : nat → loc → M ()) s ptrs objs :
  NoDup ptrs →
  Forall2 (λ so o, heap s !! so = Some o) ptrs objs →
  (∀ k so a s1,
     game s1 = game s →
     (∀ j so o, ptrs !! j = Some so → objs !! j = Some o →
        heap s1 !! so = Some (if decide (j < k)%nat then f j o else o)) →
     ptrs !! k = Some so → objs !! k = Some a →
     body k so s1
     = Some ((), mkState (game s1) (<[so := f k a]> (heap s1)) (trace s1 ++ ev k so a))) →
  ∃ s', forRange body 0 ptrs s = Some ((), s')
    ∧ game s' = game s
    ∧ Forall2 (λ so o, heap s' !! so = Some o) ptrs (imap f objs)
    ∧ (∀ so, so ∉ ptrs → heap s' !! so = heap s !! so)
    ∧ trace s' = trace s ++ concat (imap (λ k p, ev k p.1 p.2) (zip ptrs objs)).
Proof.
  intros Hnd Hobjs Hbody.
  pose proof (Forall2_length _ _ _ Hobjs) as Hlen.
  set (evs := imap (λ k p, ev k p.1 p.2) (zip ptrs objs)).
  set (I := λ (k : nat) (s1 : State F),
    game s1 = game s
    ∧ (∀ j so o, ptrs !! j = Some so → objs !! j = Some o →
         heap s1 !! so = Some (if decide (j < k)%nat then f j o else o))
    ∧ (∀ so, so ∉ ptrs → heap s1 !! so = heap s !! so)
    ∧ trace s1 = trace s ++ concat (take k evs)).
  destruct (forRange_inv I body ptrs) with (s := s) as (s' & Hrun & Hg & Hh & Hfr & Htr).
  - (* one iteration *)
    intros k so1 s1 Hk (Hg & Hh & Hfr & Htr).
    destruct (lookup_lt_is_Some_2 objs k) as [a Ha].
    { rewrite <- Hlen. by eapply lookup_lt_Some. }
    rewrite (Hbody k so1 a s1 Hg Hh Hk Ha).
    eexists. split; [done|]. repeat split; simpl.
    + done.
    + intros j so o Hj Ho. destruct (decide (so = so1)) as [->|Hne].
      * assert (j = k) as -> by (by eapply NoDup_lookup).
        rewrite lookup_insert_eq, decide_True by lia. congruence.
      * rewrite lookup_insert_ne by done. rewrite (Hh j so o Hj Ho).
        assert (j ≠ k) by (intros ->; congruence).
        f_equal. repeat case_decide; (done || lia).
    + intros so Hso. rewrite lookup_insert_ne; [by apply Hfr|].
      intros <-. apply Hso. by eapply list_elem_of_lookup_2.
    + rewrite Htr, <- app_assoc. f_equal.
      rewrite (take_S_r evs k (ev k so1 a)).
      * by rewrite concat_app; simpl; rewrite app_nil_r.
      * unfold evs. rewrite list_lookup_imap, lookup_zip_with, Hk. simpl.
        by rewrite Ha.
  - (* the invariant holds at the start *)
    repeat split.
    + intros j so o Hj Ho. eapply Forall2_lookup_lr in Hobjs; [|done..].
      by rewrite decide_False by lia.
    + by rewrite take_0, app_nil_r.
  - (* and gives the result at the end *)
    exists s'. split; [done|repeat split].
    + done.
    + apply Forall2_same_length_lookup_2; [by rewrite length_imap|].
      intros j so o' Hj Ho'. rewrite list_lookup_imap in Ho'.
      destruct (objs !! j) as [o|] eqn:Ho; [|done]. simpl in Ho'.
      injection Ho' as <-. rewrite (Hh j so o Hj Ho).
      apply lookup_lt_Some in Hj. by rewrite decide_True by lia.
    + done.
    + rewrite Htr. fold evs. rewrite take_ge; [done|].
      unfold evs. rewrite length_imap, length_zip_with. lia.
Qed.

Lemma updateVelocities_run s objs :
  NoDup (spaceObjects (game s)) → bodies s = Some objs →
  ∃ s', updateVelocities s = Some ((), s')
    ∧ game s' = game s
    ∧ bodies s' = Some (attractAll objs)
    ∧ (∀ so, so ∉ spaceObjects (game s) → heap s' !! so = heap s !! so)
    ∧ trace s' = trace s ++ forceReads (spaceObjects (game s)) objs.
Proof.
  intros Hnd Hobjs. apply bodies_Some in Hobjs.
  destruct (slice_loop_run
    (λ i o, attract o (others i objs))
    (λ i so a, (λ q, ForceRead so q.1 (position a) (position q.2))
                 <$> others i (zip (spaceObjects (game s)) objs))
    (λ i so1, g ← getGame;
       forRange (λ j so2, if decide (j = i) then mret () else pull so1 so2)
         0 (spaceObjects g))
    s _ _ Hnd Hobjs) as (s' & Hrun & Hg & Hh & Hfr & Htr).
  { intros k so1 a s1 Hg Hh Hk Ha.
    unfold mbind at 1, M_bind at 1, getGame at 1.
    replace (spaceObjects (game s1)) with (spaceObjects (game s)) by (by rewrite Hg).
    apply inner_loop_run; [done| |done| |done].
    - apply Forall2_same_length_lookup_2; [by eapply Forall2_length|].
      intros j so o Hj Ho.
      eexists. split; [by apply Hh|]. case_decide; [apply attract_physics|done].
    - rewrite (Hh k so1 a Hk Ha). by rewrite decide_False by lia. }
  exists s'. split; [exact Hrun|repeat split; try done].
  apply bodies_Some. by rewrite Hg.
Qed.

(** *** The second loop *)

Lemma updatePositions_run s objs :
  NoDup (spaceObjects (game s)) → bodies s = Some objs →
  ∃ s', updatePositions s = Some ((), s')
    ∧ game s' = game s
    ∧ bodies s' = Some ((λ o, rescale (game s) (move o)) <$> objs)
    ∧ (∀ so, so ∉ spaceObjects (game s) → heap s' !! so = heap s !! so)
    ∧ trace s' = trace s ++ positionWrites (spaceObjects (game s)) objs.
Proof.
  intros Hnd Hobjs. apply bodies_Some in Hobjs.
  destruct (slice_loop_run
    (λ _ o, rescale (game s) (move o))
    (λ _ so o, positionWrites [so] [o])
    (λ _ so, UpdatePosition so;;
       o ← load so;
       g ← getGame;
       store so (set_scaledPosition o
         (Translate (Scale (position o) XScale YScale)
            (float64 (screenWidth g ÷ 2)) (float64 (screenHeight g ÷ 2)))))
    s _ _ Hnd Hobjs) as (s' & Hrun & Hg & Hh & Hfr & Htr).
  { intros k so a s1 Hg Hh Hk Ha.
    assert (heap s1 !! so = Some a) as Hso.
    { rewrite (Hh k so a Hk Ha). by rewrite decide_False by lia. }
    rewrite (bind_run _ _ _ _ _ (UpdatePosition_run _ _ _ Hso)).
    unfold mbind, M_bind, load, getGame, store. simpl.
    rewrite lookup_insert_eq. simpl. by rewrite insert_insert_eq, Hg. }
  exists s'. split; [exact Hrun|repeat split; try done].
  - apply bodies_Some. rewrite Hg.
    by rewrite <- (imap_const (λ o, rescale (game s) (move o)) objs).
  - rewrite Htr. unfold positionWrites. f_equal. f_equal. apply imap_const.
Qed.

(** *** The whole step *)

Theorem Update_run s objs :
  NoDup (spaceObjects (game s)) → bodies s = Some objs →
  ∃ s', Update s = Some (nilError, s')
    ∧ game s' = mkGame (screenWidth (game s)) (screenHeight (game s))
                  (spaceObjects (game s)) (time (game s) + dt)%f64
    ∧ bodies s' = Some (stepAll (game s) objs)
    ∧ (∀ so, so ∉ spaceObjects (game s) → heap s' !! so = heap s !! so)
    ∧ trace s' = trace s ++ forceReads (spaceObjects (game s)) objs
                   ++ positionWrites (spaceObjects (game s)) (attractAll objs).
Proof.
  intros Hnd Hobjs.
  destruct (updateVelocities_run s objs Hnd Hobjs) as (s1 & E1 & Hg1 & Hb1 & Hf1 & Ht1).
  destruct (updatePositions_run s1 (attractAll objs)) as (s2 & E2 & Hg2 & Hb2 & Hf2 & Ht2);
    [by rewrite Hg1|done|].
  unfold Update.
  rewrite (bind_run _ _ _ _ _ E1), (bind_run _ _ _ _ _ E2).
  unfold mbind, M_bind, getGame, putGame, mret, M_ret. simpl.
  eexists. split; [done|]. simpl. repeat split.
  - by rewrite Hg2, Hg1.
  - apply bodies_Some. simpl. apply bodies_Some in Hb2.
    rewrite Hg2, Hg1 in Hb2 |- *. exact Hb2.
  - intros so Hso. rewrite Hf2, Hf1; [done..|by rewrite Hg1].
  - by rewrite Ht2, Ht1, Hg1, <- app_assoc.
Qed.

Lemma Update_world s :
  world s → ∃ s', Update s = Some (nilError, s') ∧ world s'.
Proof.
  intros [Hnd [objs Hobjs]].
  destruct (Update_run s objs Hnd Hobjs) as (s' & E & Hg & Hb & _).
  exists s'. split; [done|]. split; [by rewrite Hg|by rewrite Hb].
Qed.

(** The step at one pointer of the slice. *)
Lemma stepAll_lookup g objs i :
  stepAll g objs !! i
  = (λ o, rescale g (move (attract o (others i objs)))) <$> objs !! i.
Proof.
  unfold stepAll, attractAll. rewrite list_lookup_fmap, list_lookup_imap.
  by destruct (objs !! i).
Qed.

Theorem Update_lookup s objs :
  NoDup (spaceObjects (game s)) → bodies s = Some objs →
  ∃ s', Update s = Some (nilError, s')
    ∧ game s' = mkGame (screenWidth (game s)) (screenHeight (game s))
                  (spaceObjects (game s)) (time (game s) + dt)%f64
    ∧ (∀ i so o, spaceObjects (game s) !! i = Some so → objs !! i = Some o →
         heap s' !! so = Some (rescale (game s) (move (attract o (others i objs)))))
    ∧ (∀ so, so ∉ spaceObjects (game s) → heap s' !! so = heap s !! so)
    ∧ trace s' = trace s ++ forceReads (spaceObjects (game s)) objs
                   ++ positionWrites (spaceObjects (game s)) (attractAll objs).
Proof.
  intros Hnd Hobjs.
  destruct (Update_run s objs Hnd Hobjs) as (s' & E & Hg & Hb & Hf & Ht).
  exists s'. repeat split; try done.
  intros i so o Hi Ho. apply bodies_Some in Hb. rewrite Hg in Hb. simpl in Hb.
  eapply Forall2_lookup_lr in Hb; [exact Hb|exact Hi|].
  by rewrite stepAll_lookup, Ho.
Qed.

Lemma foldl_accelerate_velocity o fs :
  velocity (foldl accelerate o fs) = foldl (kick (mass o)) (velocity o) fs.
Proof.
  revert o. induction fs as [|f fs IH]; intros o; [done|]. simpl.
  by rewrite IH.
Qed.

(** The fields the first loop nest leaves alone. *)
Lemma attract_fields o bs :
  name (attract o bs) = name o ∧ mass (attract o bs) = mass o
  ∧ position (attract o bs) = position o
  ∧ scaledPosition (attract o bs) = scaledPosition o
  ∧ img (attract o bs) = img o ∧ pathImg (attract o bs) = pathImg o
  ∧ color (attract o bs) = color o.
Proof.
  unfold attract. generalize (calculateGravitationalForce o <$> bs). intros fs.
  revert o. induction fs as [|f fs IH]; intros o; [done|]. simpl.
  by destruct (IH (accelerate o f)) as (-> & -> & -> & -> & -> & -> & ->).
Qed.

Lemma attract_velocity o bs :
  velocity (attract o bs)
  = foldl (kick (mass o)) (velocity o) (calculateGravitationalForce o <$> bs).
Proof. apply foldl_accelerate_velocity. Qed.

(** *** The trace of a step *)

Lemma elem_of_concat {A} (x : A) (ls : list (list A)) :
  x ∈ concat ls ↔ ∃ l, l ∈ ls ∧ x ∈ l.
Proof.
  induction ls as [|l ls IH]; simpl.
  - split; [by intros ?%elem_of_nil|by intros (? & ?%elem_of_nil & _)].
  - rewrite elem_of_app, IH. split.
    + intros [Hx|(l' & Hl' & Hx)]; [exists l|exists l']; split; try done.
      * by left.
      * by right.
    + intros (l' & [->|Hl']%elem_of_cons & Hx); [by left|right; by exists l'].
Qed.

Lemma elem_of_others {A} (x : A) i (l : list A) :
  x ∈ others i l ↔ ∃ j, j ≠ i ∧ l !! j = Some x.
Proof.
  unfold others. rewrite elem_of_app, elem_of_take. split.
  - intros [(j & Hj & Hlt)|Hx].
    + exists j. split; [lia|done].
    + apply list_elem_of_lookup in Hx as [j Hj]. rewrite lookup_drop in Hj.
      exists (S i + j)%nat. split; [lia|done].
  - intros (j & Hne & Hj). destruct (decide (j < i)%nat).
    + left. by exists j.
    + right. apply list_elem_of_lookup. exists (j - S i)%nat.
      rewrite lookup_drop. by replace (S i + (j - S i))%nat with j by lia.
Qed.

(** The force computations of a step: one for every pair of different
    indices of the slice, and no other. *)
Lemma elem_of_forceReads ptrs objs e :
  e ∈ forceReads ptrs objs ↔
  ∃ i j t src a b, i ≠ j
    ∧ ptrs !! i = Some t ∧ objs !! i = Some a
    ∧ ptrs !! j = Some src ∧ objs !! j = Some b
    ∧ e = ForceRead t src (position a) (position b).
Proof.
  unfold forceReads. rewrite elem_of_concat. split.
  - intros (l & Hl & He).
    apply elem_of_lookup_imap_1 in Hl as (i & [t a] & -> & Hi).
    apply list_elem_of_fmap_1 in He as ([src b] & -> & Hq).
    apply elem_of_others in Hq as (j & Hne & Hj).
    apply lookup_zip_with_Some in Hi as (? & ? & [= <- <-] & Hi1 & Hi2).
    apply lookup_zip_with_Some in Hj as (? & ? & [= <- <-] & Hj1 & Hj2).
    exists i, j, t, src, a, b. by repeat split.
  - intros (i & j & t & src & a & b & Hne & Hi1 & Hi2 & Hj1 & Hj2 & ->).
    eexists. split.
    + apply (elem_of_lookup_imap_2 _ _ (t, a) i).
      apply lookup_zip_with_Some. by exists t, a.
    + simpl. apply (list_elem_of_fmap_2' _ _ (src, b)); [|done].
      apply elem_of_others. exists j. split; [done|].
      apply lookup_zip_with_Some. by exists src, b.
Qed.

Lemma forceReads_no_write ptrs objs :
  Forall (λ e, isPositionWrite e = false) (forceReads ptrs objs).
Proof.
  apply Forall_forall. intros e He.
  apply elem_of_forceReads in He as (i & j & t & src & a & b & _ & _ & _ & _ & _ & ->).
  done.
Qed.

Lemma positionWrites_write ptrs objs :
  Forall (λ e, isPositionWrite e = true) (positionWrites ptrs objs).
Proof.
  apply Forall_forall. intros e He. unfold positionWrites in He.
  apply elem_of_concat in He as (l & Hl & He).
  apply list_elem_of_fmap_1 in Hl as (p & -> & _).
  by repeat (apply elem_of_cons in He as [->|He]; [done|]); apply elem_of_nil in He.
Qed.

(** A trace of force computations followed by position assignments. *)
Lemma reads_then_writes {B} (pre : B → option (Vector F)) (fr pw : list (Event B F)) :
  Forall (λ e, isPositionWrite e = false) fr →
  Forall (λ e, isPositionWrite e = true) pw →
  (∀ t src pt ps, ForceRead t src pt ps ∈ fr → pre t = Some pt ∧ pre src = Some ps) →
  reads_pre_tick pre (fr ++ pw) ∧ no_write_before_read (fr ++ pw).
Proof.
  intros Hfr Hpw Hpre.
  assert (∀ k t src pt ps, (fr ++ pw) !! k = Some (ForceRead t src pt ps) →
            fr !! k = Some (ForceRead t src pt ps)) as Hin.
  { intros k t src pt ps Hk. apply lookup_app_Some in Hk as [Hk|[_ Hk]]; [done|].
    eapply Forall_lookup_1 in Hpw; [|exact Hk]. done. }
  split.
  - intros k t src pt ps Hk. apply Hin in Hk. apply Hpre.
    by eapply list_elem_of_lookup_2.
  - intros k k' t src pt ps Hk Hlt e Hk'. apply Hin in Hk.
    apply lookup_lt_Some in Hk.
    rewrite lookup_app_l in Hk' by lia.
    by eapply Forall_lookup_1 in Hfr.
Qed.

(** *** What the step depends on *)

Lemma physics_inv o o' :
  physics o = physics o' ↔
  mass o = mass o' ∧ position o = position o' ∧ velocity o = velocity o'.
Proof. unfold physics. split; [by intros [= -> -> ->]|by intros (-> & -> & ->)]. Qed.

Lemma physics_Forall2 objs objs' :
  physics <$> objs = physics <$> objs' ↔
  Forall2 (λ o o', physics o = physics o') objs objs'.
Proof. by rewrite list_eq_Forall2, Forall2_fmap. Qed.

Lemma forces_physics o o' bs bs' :
  physics o = physics o' → physics <$> bs = physics <$> bs' →
  calculateGravitationalForce o <$> bs = calculateGravitationalForce o' <$> bs'.
Proof.
  intros (Hm & Hp & _)%physics_inv Hbs%physics_Forall2.
  apply list_eq_Forall2, Forall2_fmap.
  eapply Forall2_impl; [exact Hbs|]. simpl.
  intros b b' (Hmb & Hpb & _)%physics_inv. by apply force_physics.
Qed.

Lemma others_fmap {A B} (f : A → B) i (l : list A) :
  f <$> others i l = others i (f <$> l).
Proof. unfold others. by rewrite fmap_app, fmap_take, fmap_drop. Qed.

Lemma stepAll_physics g g' objs objs' :
  physics <$> objs = physics <$> objs' →
  physics <$> stepAll g objs = physics <$> stepAll g' objs'.
Proof.
  intros Hobjs. apply list_eq. intros i.
  rewrite !list_lookup_fmap, !stepAll_lookup.
  pose proof (f_equal (λ l, l !! i) Hobjs) as Hi. simpl in Hi.
  rewrite !list_lookup_fmap in Hi.
  destruct (objs !! i) as [o|], (objs' !! i) as [o'|]; [|done..].
  apply (inj Some) in Hi.
  pose proof Hi as (Hm & Hp & Hv)%physics_inv.
  cbn [fmap option_fmap option_map]. f_equal. apply physics_inv. simpl.
  destruct (attract_fields o (others i objs)) as (_ & -> & -> & _).
  destruct (attract_fields o' (others i objs')) as (_ & -> & -> & _).
  rewrite !attract_velocity.
  rewrite (forces_physics o o' (others i objs) (others i objs') Hi)
    by (by rewrite !others_fmap, Hobjs).
  by rewrite Hm, Hp, Hv.
Qed.
End Run.
End NBodyFacts.

(** * The step in exact arithmetic *)

Module ExactFacts.
Import NBody NBodyFacts.
Local Open Scope R_scope.

Ltac exact_arith :=
  cbn [f64_add f64_sub f64_mul f64_div f64_neg f64_sqrt f64_const exact] in *.

Lemma Q2R_value (q : Q) (n : Z) (d : positive) :
  Qnum q = n → Qden q = d → Q2R q = IZR n / IZR (Zpos d).
Proof. intros <- <-. reflexivity. Qed.

Lemma gravitation_exact : @gravitation R exact = 667430 / 10000000000000000.
Proof. unfold gravitation. exact_arith. by apply Q2R_value; vm_compute. Qed.

Lemma gravitation_pos : 0 < @gravitation R exact.
Proof. rewrite gravitation_exact. lra. Qed.

Lemma Q2R_zero : Q2R 0 = 0.
Proof. erewrite Q2R_value by (vm_compute; reflexivity). lra. Qed.

Lemma vector_eq (u v : Vector R) : X u = X v → Y u = Y v → u = v.
Proof. destruct u, v. simpl. by intros -> ->. Qed.

(** The distance is the same in both directions. *)
Lemma Length_sym (ax ay bx by_ : R) :
  Length (mkVector (f64_sub ax bx) (f64_sub ay by_))
  = Length (mkVector (f64_sub bx ax) (f64_sub by_ ay)).
Proof. unfold Length. exact_arith. simpl. f_equal. ring. Qed.

(** Newton's third law for the computed force. *)
Lemma force_antisymmetric (a b : SpaceObject R) :
  calculateGravitationalForce a b
  = mkVector (- X (calculateGravitationalForce b a))
             (- Y (calculateGravitationalForce b a)).
Proof.
  unfold calculateGravitationalForce, Normalize.
  rewrite (Length_sym (X (position b)) (Y (position b)) (X (position a)) (Y (position a))).
  set (r := Length _). exact_arith. simpl. unfold Rdiv.
  apply vector_eq; simpl; ring.
Qed.

(** The distance of two different positions is positive. *)
Lemma Length_pos (p q : Vector R) :
  p ≠ q → 0 < Length (mkVector (f64_sub (X p) (X q)) (f64_sub (Y p) (Y q))).
Proof.
  intros Hne. unfold Length. exact_arith. simpl. apply sqrt_lt_R0.
  pose proof (Rle_0_sqr (X p - X q)) as Hx2. pose proof (Rle_0_sqr (Y p - Y q)) as Hy2.
  unfold Rsqr in Hx2, Hy2.
  destruct (Req_dec (X p - X q) 0) as [Hx|Hx].
  - destruct (Req_dec (Y p - Y q) 0) as [Hy|Hy].
    + exfalso. apply Hne, vector_eq; lra.
    + pose proof (Rsqr_pos_lt _ Hy) as Hsq. unfold Rsqr in Hsq. lra.
  - pose proof (Rsqr_pos_lt _ Hx) as Hsq. unfold Rsqr in Hsq. lra.
Qed.

Lemma Length_sqr (v : Vector R) : Length v * Length v = X v * X v + Y v * Y v.
Proof. unfold Length. exact_arith. apply sqrt_sqrt. nra. Qed.

(** The law of gravitation, for the force on [a] due to [b]. *)
Lemma force_law (a b : SpaceObject R) :
  position a ≠ position b → 0 <= mass a → 0 <= mass b →
  let d := mkVector (X (position a) - X (position b)) (Y (position a) - Y (position b)) in
  let r := Length d in
  let Fm := gravitation * mass a * mass b / (r * r) in
  0 < r
  ∧ calculateGravitationalForce a b = mkVector (- Fm * (X d / r)) (- Fm * (Y d / r))
  ∧ Length (calculateGravitationalForce a b) = Fm.
Proof.
  intros Hne Hma Hmb d r Fm.
  pose proof (Length_pos _ _ Hne) as Hr. exact_arith. fold d r in Hr.
  pose proof (Length_sqr d) as Hr2. fold r in Hr2.
  assert (0 <= Fm) as HF.
  { unfold Fm. apply Rmult_le_pos; [|left; apply Rinv_0_lt_compat; nra].
    pose proof gravitation_pos. apply Rmult_le_pos; [nra|done]. }
  assert (calculateGravitationalForce a b = mkVector (- Fm * (X d / r)) (- Fm * (Y d / r)))
    as Hforce.
  { unfold calculateGravitationalForce, Normalize. exact_arith. fold d r.
    unfold Fm. apply vector_eq; simpl; field; lra. }
  split; [done|]. split; [done|].
  rewrite Hforce. unfold Length at 1. exact_arith. simpl.
  apply sqrt_lem_1; [apply Rplus_le_le_0_compat; apply Rle_0_sqr|done|].
  simpl in Hr2.
  transitivity (Fm * Fm * ((r * r) / (r * r))); [field; lra|].
  rewrite Hr2 at 1. field. lra.
Qed.

(** *** Pairwise kicks against one kick by the net force *)

Lemma kick_add (m : R) (v f1 f2 : Vector R) :
  kick m (kick m v f1) f2 = kick m v (TwoPhase.add f1 f2).
Proof. unfold kick, TwoPhase.add. exact_arith. apply vector_eq; simpl; unfold Rdiv; ring. Qed.

Lemma kick_zero (m : R) (v : Vector R) : kick m v TwoPhase.zero = v.
Proof.
  unfold kick, TwoPhase.zero. exact_arith. simpl. rewrite Q2R_zero.
  apply vector_eq; simpl; unfold Rdiv; ring.
Qed.

Lemma foldl_kick (m : R) (fs : list (Vector R)) : ∀ v acc,
  foldl (kick m) (kick m v acc) fs = kick m v (foldl TwoPhase.add acc fs).
Proof.
  induction fs as [|f fs IH]; intros v acc; [done|]. simpl.
  by rewrite kick_add, IH.
Qed.

Lemma kicks_net (o : SpaceObject R) (bs : list (SpaceObject R)) :
  foldl (kick (mass o)) (velocity o) (calculateGravitationalForce o <$> bs)
  = kick (mass o) (velocity o) (TwoPhase.NetForceOn o bs).
Proof.
  rewrite <- (kick_zero (mass o) (velocity o)) at 1. rewrite foldl_kick.
  unfold TwoPhase.NetForceOn. by rewrite foldl_fmap.
Qed.

Lemma TwoPhase_Step_lookup `{Float64 F} (objs : list (SpaceObject F)) i :
  TwoPhase.Step objs !! i
  = (λ o, move (accelerate o (TwoPhase.NetForceOn o (others i objs)))) <$> objs !! i.
Proof.
  unfold TwoPhase.Step. rewrite list_lookup_fmap, lookup_zip_with, list_lookup_imap.
  by destruct (objs !! i).
Qed.

(** In exact arithmetic the loop nest computes the strict two-phase step. *)
Theorem stepAll_two_phase (g : Game R) (objs : list (SpaceObject R)) :
  physics <$> stepAll g objs = physics <$> TwoPhase.Step objs.
Proof.
  apply list_eq. intros i.
  rewrite !list_lookup_fmap, stepAll_lookup, TwoPhase_Step_lookup.
  destruct (objs !! i) as [o|]; [|done]. cbn [fmap option_fmap option_map].
  f_equal. unfold physics. simpl.
  destruct (attract_fields o (others i objs)) as (_ & -> & -> & _).
  by rewrite attract_velocity, kicks_net.
Qed.

(** *** Momentum of two objects *)

Lemma momentum_two (a b : SpaceObject R) :
  momentum [a; b]
  = mkVector (mass a * X (velocity a) + mass b * X (velocity b))
             (mass a * Y (velocity a) + mass b * Y (velocity b)).
Proof.
  unfold momentum. exact_arith. simpl. rewrite Q2R_zero.
  apply vector_eq; simpl; ring.
Qed.

Lemma stepAll_two_momentum (g : Game R) (a b : SpaceObject R) :
  mass a ≠ 0 → mass b ≠ 0 →
  ∃ a' b', stepAll g [a; b] = [a'; b']
    ∧ mass a' = mass a ∧ mass b' = mass b
    ∧ momentum [a'; b'] = momentum [a; b].
Proof.
  intros Ha Hb.
  exists (rescale g (move (attract a [b]))), (rescale g (move (attract b [a]))).
  split; [reflexivity|]. split; [done|]. split; [done|].
  rewrite !momentum_two.
  change (velocity (rescale g (move (attract a [b]))))
    with (kick (mass a) (velocity a) (calculateGravitationalForce a b)).
  change (velocity (rescale g (move (attract b [a]))))
    with (kick (mass b) (velocity b) (calculateGravitationalForce b a)).
  change (mass (rescale g (move (attract a [b])))) with (mass a).
  change (mass (rescale g (move (attract b [a])))) with (mass b).
  rewrite (force_antisymmetric b a).
  generalize (calculateGravitationalForce a b). intros f.
  unfold kick. exact_arith. apply vector_eq; simpl; field; by split.
Qed.

Theorem Updates_two_momentum (n : nat) : ∀ (s : State R) (a b : SpaceObject R),
  NoDup (spaceObjects (game s)) → bodies s = Some [a; b] →
  0 < mass a → 0 < mass b →
  ∃ s' a' b', Updates n s = Some (nilError, s')
    ∧ bodies s' = Some [a'; b']
    ∧ momentum [a'; b'] = momentum [a; b].
Proof.
  induction n as [|n IH]; intros s a b Hnd Hobjs Ha Hb.
  - by exists s, a, b.
  - destruct (Update_run s [a; b] Hnd Hobjs) as (s1 & E1 & Hg1 & Hb1 & _).
    destruct (stepAll_two_momentum (game s) a b) as (a1 & b1 & Hstep & Hma & Hmb & Hmom);
      [lra..|].
    rewrite Hstep in Hb1.
    destruct (IH s1 a1 b1) as (s' & a' & b' & E & Hobjs' & Hmom'); [|done|lra..|].
    { by rewrite Hg1. }
    exists s', a', b'. split; [|split; [done|congruence]].
    cbn [Updates]. by rewrite (bind_run _ _ _ _ _ E1).
Qed.
End ExactFacts.

(** * Facts about the two concrete games in binary64 *)

Module Binary64Facts.
Import NBody NBodyFacts Worlds.

(** Two binary64 values are different when their specifications are. *)
Lemma float_neq (x y : float) : Prim2SF x ≠ Prim2SF y → x ≠ y.
Proof. by intros Hne ->. Qed.

Lemma Some_vector_Y {F} (u v : Vector F) : Some u = Some v → Y u = Y v.
Proof. by intros [= ->]. Qed.

(** The constants of the program are the binary64 values nearest to the
  decimal constants of the source. *)
Lemma gravitation_binary64 : @gravitation float binary64 = 0x1.2589effed8accp-34%float.
Proof. reflexivity. Qed.

Lemma dt_binary64 : @dt float binary64 = 43200%float ∧ @TwoBody.dt float binary64 = 1440%float.
Proof. split; reflexivity. Qed.

Lemma NewGame_NoDup : NoDup (spaceObjects (game NewGame)).
Proof. compute_done. Qed.

Lemma NewGame_bodies : bodies NewGame = Some [Earth; Moon; Spacecraft].
Proof. reflexivity. Qed.

Lemma NewGame_world : world NewGame.
Proof. split; [exact NewGame_NoDup|]. rewrite NewGame_bodies. by eexists. Qed.

Lemma NewGameResized_world : world NewGameResized.
Proof.
split; [compute_done|].
by exists ((λ o, mkSpaceObject "renamed" (mass o) (position o)
              (mkVector (f64_const 540) (f64_const 360)) (velocity o)
              None None White) <$> [Earth; Moon; Spacecraft]).
Qed.

Lemma NewGameResized_view : view NewGame = view NewGameResized.
Proof. reflexivity. Qed.
End Binary64Facts.

(** * Facts about the two-body step *)

Module TwoBodyFacts.
Import TwoBody.

(** The game after one step, field by field. *)
Lemma Update_game `{Float64 F} (g : Game F) :
let p := p_position (planet g) in
let v := p_velocity (planet g) in
let moved := mkVector (X p + X v * dt)%f64 (Y p + Y v * dt)%f64 in
let sc := spacecraft g in
let force := gravityOnSpacecraft g (position sc) moved in
let v' := mkVector (X (velocity sc) + (X force / mass sc) * dt)%f64
                   (Y (velocity sc) + (Y force / mass sc) * dt)%f64 in
(Update g).1.1
= mkGame (screenWidth g) (screenHeight g)
    (mkPlanet (p_mass (planet g)) moved v (p_img (planet g)) (p_pathImg (planet g)))
    (mkSpacecraft (mass sc)
       (mkVector (X (position sc) + X v' * dt)%f64 (Y (position sc) + Y v' * dt)%f64)
       v' (img sc) (pathImg sc))
    (time g + dt)%f64.
Proof. reflexivity. Qed.
End TwoBodyFacts.

Module ExactFacts2.
Import NBody NBodyFacts Worlds ExactFacts.
Local Open Scope R_scope.

Lemma exactPair_NoDup : NoDup (spaceObjects (game exactPair)).
Proof. compute_done. Qed.

Lemma exactPair_bodies : bodies exactPair = Some [exactA; exactB].
Proof. reflexivity. Qed.

(** In exact arithmetic the two-body step adds force times dt to the total
  momentum: the planet feels no reaction. *)
Lemma TwoBody_momentum_change (g : TwoBody.Game R) :
TwoBody.mass (TwoBody.spacecraft g) ≠ 0 →
let g' := (TwoBody.Update g).1.1 in
let force := TwoBody.gravityOnSpacecraft g (TwoBody.position (TwoBody.spacecraft g))
               (TwoBody.p_position (TwoBody.planet g')) in
TwoBody.momentum g'
= mkVector (X (TwoBody.momentum g) + X force * TwoBody.dt)
           (Y (TwoBody.momentum g) + Y force * TwoBody.dt).
Proof.
intros Hm g' force. subst g'. revert force. rewrite TwoBodyFacts.Update_game.
cbv zeta. cbn [TwoBody.planet TwoBody.p_position].
generalize (TwoBody.gravityOnSpacecraft g (TwoBody.position (TwoBody.spacecraft g))
  (mkVector
     (X (TwoBody.p_position (TwoBody.planet g))
      + X (TwoBody.p_velocity (TwoBody.planet g)) * TwoBody.dt)%f64
     (Y (TwoBody.p_position (TwoBody.planet g))
      + Y (TwoBody.p_velocity (TwoBody.planet g)) * TwoBody.dt)%f64)).
intros force. unfold TwoBody.momentum. exact_arith.
apply vector_eq; simpl; field; done.
Qed.
End ExactFacts2.

(** * Binary64: signs and not-a-number *)

Module Binary64Sign.
Import NBody Binary64Values.
(** *** Signs in binary64

    Rounding to nearest is symmetric, so negation commutes with the
    rounded operations. *)

Lemma binary_round_aux_opp s m e l :
  binary_round_aux prec emax (negb s) m e l = SFopp (binary_round_aux prec emax s m e l).
Proof.
  unfold binary_round_aux.
  destruct (shr_fexp prec emax m e l) as [mrs' e'].
  destruct (shr_fexp prec emax _ e' loc_Exact) as [mrs'' e''].
  destruct (shr_m mrs''); [done| |done].
  by destruct (Z.leb e'' (emax - prec)).
Qed.

Lemma binary_round_opp s m e :
  binary_round prec emax (negb s) m e = SFopp (binary_round prec emax s m e).
Proof.
  unfold binary_round. destruct (shl_align m e _) as [mz ez].
  apply binary_round_aux_opp.
Qed.

Lemma SFopp_involutive x : SFopp (SFopp x) = x.
Proof. destruct x as [s|s| |s m e]; simpl; by rewrite ?negb_involutive. Qed.

Lemma SF64mul_opp_l x y : SF64mul (SFopp x) y = SFopp (SF64mul x y).
Proof.
  destruct x as [sx|sx| |sx mx ex], y as [sy|sy| |sy my ey]; simpl;
    rewrite <- ?negb_xorb_l; try done.
  apply binary_round_aux_opp.
Qed.

Lemma SF64mul_opp_r x y : SF64mul x (SFopp y) = SFopp (SF64mul x y).
Proof.
  destruct x as [sx|sx| |sx mx ex], y as [sy|sy| |sy my ey]; simpl;
    rewrite <- ?negb_xorb_r; try done.
  apply binary_round_aux_opp.
Qed.

Lemma SF64div_opp_l x y : SF64div (SFopp x) y = SFopp (SF64div x y).
Proof.
  destruct x as [sx|sx| |sx mx ex], y as [sy|sy| |sy my ey]; simpl;
    rewrite <- ?negb_xorb_l; try done.
  destruct (SFdiv_core_binary prec emax _ ex _ ey) as [[mz ez] lz].
  apply binary_round_aux_opp.
Qed.

Lemma SF64sub_swap x y :
  is_zero (SF64sub x y) = false → SF64sub y x = SFopp (SF64sub x y).
Proof.
  destruct x as [sx|sx| |sx mx ex], y as [sy|sy| |sy my ey]; simpl;
    try done; try (by destruct sx, sy); try (by rewrite negb_involutive).
  rewrite (Z.min_comm ey ex).
  set (a := cond_Zopp sx _). set (b := cond_Zopp sy _).
  replace (b - a)%Z with (- (a - b))%Z by lia.
  destruct (a - b)%Z as [|p|p]; simpl; [done|..]; intros _.
  - apply (binary_round_opp false).
  - by rewrite (binary_round_opp false), SFopp_involutive.
Qed.

(** The same for the primitive operations. *)
Lemma mul_opp_l (x y : float) : (- x * y = - (x * y))%float.
Proof. apply Prim2SF_inj. by rewrite FloatAxioms.opp_spec, !FloatAxioms.mul_spec, FloatAxioms.opp_spec, SF64mul_opp_l. Qed.

Lemma mul_opp_r (x y : float) : (x * - y = - (x * y))%float.
Proof. apply Prim2SF_inj. by rewrite FloatAxioms.opp_spec, !FloatAxioms.mul_spec, FloatAxioms.opp_spec, SF64mul_opp_r. Qed.

Lemma div_opp_l (x y : float) : (- x / y = - (x / y))%float.
Proof. apply Prim2SF_inj. by rewrite FloatAxioms.opp_spec, !FloatAxioms.div_spec, FloatAxioms.opp_spec, SF64div_opp_l. Qed.

Lemma opp_involutive (x : float) : (- - x = x)%float.
Proof. apply Prim2SF_inj. by rewrite !FloatAxioms.opp_spec, SFopp_involutive. Qed.

Lemma eqb_zero_false (x : float) :
  PrimFloat.eqb x 0 = false → is_zero (Prim2SF x) = false.
Proof.
  intros Hz. rewrite FloatAxioms.eqb_spec in Hz. revert Hz.
  by destruct (Prim2SF x) as [[]|[]| |[] m e].
Qed.

Lemma sub_swap (x y : float) :
  PrimFloat.eqb (x - y) 0 = false → (y - x = - (x - y))%float.
Proof.
  intros Hz%eqb_zero_false. apply Prim2SF_inj.
  rewrite FloatAxioms.sub_spec in Hz. by rewrite FloatAxioms.opp_spec, !FloatAxioms.sub_spec, SF64sub_swap.
Qed.


Lemma is_nan_spec (x : float) : Prim2SF x = S754_nan → x = nan.
Proof. intros Hx. by apply Prim2SF_inj. Qed.
End Binary64Sign.

(** * Binary64: the direction of the force and its reaction *)

Module SignFacts.
Import NBody NBodyFacts Binary64Values Binary64Sign.

Lemma sign_round_aux s m e l :
  sign_of (binary_round_aux prec emax s m e l) = Some s
  ∨ binary_round_aux prec emax s m e l = S754_nan.
Proof.
  unfold binary_round_aux.
  destruct (shr_fexp prec emax m e l) as [mrs' e'].
  destruct (shr_fexp prec emax _ e' loc_Exact) as [mrs'' e''].
  destruct (shr_m mrs''); [by left| |by right].
  destruct (Z.leb e'' (emax - prec)); by left.
Qed.

Lemma sign_round s m e :
  sign_of (binary_round prec emax s m e) = Some s
  ∨ binary_round prec emax s m e = S754_nan.
Proof.
  unfold binary_round. destruct (shl_align m e _) as [mz ez]. apply sign_round_aux.
Qed.

(** The sign of a product and of a quotient is the exclusive or of the
    signs, unless the result is not-a-number. *)
Lemma sign_mul x y :
  SF64mul x y = S754_nan
  ∨ ∃ sx sy, sign_of x = Some sx ∧ sign_of y = Some sy
      ∧ sign_of (SF64mul x y) = Some (xorb sx sy).
Proof.
  destruct x as [sx|sx| |sx mx ex], y as [sy|sy| |sy my ey]; simpl;
    try (by left); try (right; by exists sx, sy).
  destruct (sign_round_aux (xorb sx sy) (Zpos (mx * my)) (ex + ey) loc_Exact)
    as [Hs | Hn]; [right; by exists sx, sy|by left].
Qed.

Lemma sign_div x y :
  SF64div x y = S754_nan
  ∨ ∃ sx sy, sign_of x = Some sx ∧ sign_of y = Some sy
      ∧ sign_of (SF64div x y) = Some (xorb sx sy).
Proof.
  destruct x as [sx|sx| |sx mx ex], y as [sy|sy| |sy my ey]; simpl;
    try (by left); try (right; by exists sx, sy).
  destruct (SFdiv_core_binary prec emax _ ex _ ey) as [[mz ez] lz].
  destruct (sign_round_aux (xorb sx sy) mz ez lz)
    as [Hs | Hn]; [right; by exists sx, sy|by left].
Qed.

Lemma unsigned_nan : unsigned S754_nan.
Proof. done. Qed.

Lemma unsigned_square x : unsigned (SF64mul x x).
Proof.
  destruct (sign_mul x x) as [-> | (sx & sy & Hx & Hy & Hs)]; [done|].
  unfold unsigned. rewrite Hs. assert (sx = sy) as -> by congruence.
  by destruct sy.
Qed.

Lemma unsigned_add x y : unsigned x → unsigned y → unsigned (SF64add x y).
Proof.
  unfold unsigned.
  destruct x as [[]|[]| |[] mx ex], y as [[]|[]| |[] my ey]; simpl; try done.
  intros _ _. destruct (shl_align mx ex _) as [m1 e1]. destruct (shl_align my ey _) as [m2 e2].
  simpl. destruct (sign_round false (m1 + m2) (Z.min ex ey)) as [-> | ->]; done.
Qed.

Lemma unsigned_sqrt x : unsigned x → unsigned (SF64sqrt x).
Proof.
  unfold unsigned. destruct x as [[]|[]| |[] mx ex]; simpl; try done.
  intros _. destruct (SFsqrt_core_binary prec emax _ ex) as [[mz ez] lz].
  destruct (sign_round_aux false mz ez lz) as [-> | ->]; done.
Qed.

Lemma unsigned_mul x y : unsigned x → unsigned y → unsigned (SF64mul x y).
Proof.
  unfold unsigned. intros Hx Hy.
  destruct (sign_mul x y) as [-> | (sx & sy & Hsx & Hsy & ->)]; [done|].
  rewrite Hsx in Hx. rewrite Hsy in Hy. by destruct sx, sy.
Qed.

Lemma unsigned_div x y : unsigned x → unsigned y → unsigned (SF64div x y).
Proof.
  unfold unsigned. intros Hx Hy.
  destruct (sign_div x y) as [-> | (sx & sy & Hsx & Hsy & ->)]; [done|].
  rewrite Hsx in Hx. rewrite Hsy in Hy. by destruct sx, sy.
Qed.

(** The component of the force along a coordinate difference [d], for
    the product [k] of the masses and the gravitational constant and the
    distance [length]: it is not-a-number or has the sign opposite to the
    one of [d]. *)
Lemma sign_force d length k :
  unsigned k → unsigned length →
  let gravForce := SF64div k (SF64mul length length) in
  let fx := SF64mul (SFopp gravForce) (SF64div d length) in
  fx = S754_nan
  ∨ ∃ s, sign_of d = Some s ∧ sign_of fx = Some (negb s).
Proof.
  intros Hk Hl gravForce fx.
  assert (unsigned gravForce) as Hg.
  { apply unsigned_div; [done|]. by apply unsigned_mul. }
  subst fx.
  destruct (sign_mul (SFopp gravForce) (SF64div d length))
    as [-> | (sg & sd & Hsg & Hsd & ->)]; [by left|].
  destruct (sign_div d length) as [Hn | (sx & sl & Hsx & Hsl & Hq)].
  { rewrite Hn in Hsd. done. }
  right. exists sx. split; [done|].
  rewrite Hq in Hsd. injection Hsd as <-.
  unfold unsigned in Hl, Hg. rewrite Hsl in Hl.
  destruct gravForce as [[]|[]| |[] mg eg]; simpl in *; try done;
    injection Hsg as <-; by destruct sx, sl.
Qed.

(** *** Comparisons with zero *)

Lemma zero_spec : Prim2SF 0 = S754_zero false.
Proof. reflexivity. Qed.

Lemma positive_sign (x : float) :
  PrimFloat.ltb 0 x = true → sign_of (Prim2SF x) = Some false.
Proof.
  rewrite FloatAxioms.ltb_spec, zero_spec.
  by destruct (Prim2SF x) as [[]|[]| |[] m e].
Qed.

Lemma negative_sign (x : float) :
  PrimFloat.ltb x 0 = true → sign_of (Prim2SF x) = Some true.
Proof.
  rewrite FloatAxioms.ltb_spec, zero_spec.
  by destruct (Prim2SF x) as [[]|[]| |[] m e].
Qed.

Lemma sign_set_le (x : float) :
  sign_of (Prim2SF x) = Some true → PrimFloat.leb x 0 = true.
Proof.
  rewrite FloatAxioms.leb_spec, zero_spec.
  by destruct (Prim2SF x) as [[]|[]| |[] m e].
Qed.

Lemma sign_clear_ge (x : float) :
  sign_of (Prim2SF x) = Some false → PrimFloat.leb 0 x = true.
Proof.
  rewrite FloatAxioms.leb_spec, zero_spec.
  by destruct (Prim2SF x) as [[]|[]| |[] m e].
Qed.

Lemma unsigned_positive (x : float) : PrimFloat.ltb 0 x = true → unsigned (Prim2SF x).
Proof. intros Hs%positive_sign. unfold unsigned. by rewrite Hs. Qed.

Lemma length_unsigned (dx dy : float) :
  unsigned (Prim2SF (PrimFloat.sqrt (dx * dx + dy * dy))).
Proof.
  rewrite FloatAxioms.sqrt_spec, FloatAxioms.add_spec, !FloatAxioms.mul_spec.
  apply unsigned_sqrt, unsigned_add; apply unsigned_square.
Qed.

Lemma attract_component (d k length : float) :
  unsigned (Prim2SF k) → unsigned (Prim2SF length) →
  let fx := (- (k / (length * length)) * (d / length))%float in
  (PrimFloat.ltb 0 d = true → fx = nan ∨ PrimFloat.leb fx 0 = true)
  ∧ (PrimFloat.ltb d 0 = true → fx = nan ∨ PrimFloat.leb 0 fx = true).
Proof.
  intros Hk Hl fx.
  assert (Prim2SF fx
          = SF64mul (SFopp (SF64div (Prim2SF k) (SF64mul (Prim2SF length) (Prim2SF length))))
              (SF64div (Prim2SF d) (Prim2SF length))) as Hspec.
  { unfold fx. by rewrite FloatAxioms.mul_spec, FloatAxioms.opp_spec, !FloatAxioms.div_spec,
      FloatAxioms.mul_spec. }
  destruct (sign_force (Prim2SF d) (Prim2SF length) (Prim2SF k) Hk Hl) as [Hn | (s & Hs & Hf)].
  - assert (fx = nan) as -> by (apply is_nan_spec; by rewrite Hspec). by split; left.
  - rewrite <- Hspec in Hf. split.
    + intros Hp%positive_sign. right. apply sign_set_le.
      rewrite Hf. rewrite Hs in Hp. by injection Hp as ->.
    + intros Hp%negative_sign. right. apply sign_clear_ge.
      rewrite Hf. rewrite Hs in Hp. by injection Hp as ->.
Qed.

Lemma gravitation_unsigned : unsigned (Prim2SF (@gravitation float binary64)).
Proof. unfold unsigned. vm_compute. discriminate. Qed.

Lemma mass_product_unsigned (ma mb : float) :
  PrimFloat.ltb 0 ma = true → PrimFloat.ltb 0 mb = true →
  unsigned (Prim2SF (gravitation * mb * ma)%float).
Proof.
  intros Ha Hb. rewrite !FloatAxioms.mul_spec.
  apply unsigned_mul; [apply unsigned_mul|].
  - apply gravitation_unsigned.
  - by apply unsigned_positive.
  - by apply unsigned_positive.
Qed.

Lemma eqb_zero_true (x : float) :
  PrimFloat.eqb x 0 = true → is_zero (Prim2SF x) = true.
Proof.
  rewrite FloatAxioms.eqb_spec, zero_spec.
  by destruct (Prim2SF x) as [[]|[]| |[] m e].
Qed.

Lemma is_zero_eqb (x : float) :
  is_zero (Prim2SF x) = true → PrimFloat.eqb x 0 = true.
Proof.
  rewrite FloatAxioms.eqb_spec, zero_spec.
  by destruct (Prim2SF x) as [[]|[]| |[] m e].
Qed.

(* a zero coordinate difference gives a zero component, or not-a-number *)
Lemma zero_force d length g :
  is_zero d = true →
  let fx := SF64mul g (SF64div d length) in
  fx = S754_nan ∨ is_zero fx = true.
Proof.
  destruct d as [sd|?| |? ? ?]; try done. intros _.
  destruct length as [sl|sl| |sl ml el], g as [sg|sg| |sg mg eg]; simpl; auto.
Qed.

Lemma zero_component (d k length : float) :
  PrimFloat.eqb d 0 = true →
  let fx := (- (k / (length * length)) * (d / length))%float in
  fx = nan ∨ PrimFloat.eqb fx 0 = true.
Proof.
  intros Hd%eqb_zero_true fx.
  destruct (zero_force (Prim2SF d) (Prim2SF length)
              (Prim2SF (- (k / (length * length)))%float) Hd) as [Hn | Hz].
  - left. apply is_nan_spec. unfold fx. by rewrite FloatAxioms.mul_spec, FloatAxioms.div_spec.
  - right. apply is_zero_eqb. unfold fx. by rewrite FloatAxioms.mul_spec, FloatAxioms.div_spec.
Qed.

(** Gravity attracts, in binary64: for positive masses every component of
    the force on [a] is not-a-number, or zero, or points from [a] to [b];
    along a coordinate in which the objects do not differ it is zero or
    not-a-number. *)
Lemma force_attracts (a b : SpaceObject float) :
  PrimFloat.ltb 0 (mass a) = true → PrimFloat.ltb 0 (mass b) = true →
  let f := calculateGravitationalForce a b in
  let dx := (X (position a) - X (position b))%float in
  let dy := (Y (position a) - Y (position b))%float in
  (PrimFloat.ltb 0 dx = true → X f = nan ∨ PrimFloat.leb (X f) 0 = true)
  ∧ (PrimFloat.ltb dx 0 = true → X f = nan ∨ PrimFloat.leb 0 (X f) = true)
  ∧ (PrimFloat.eqb dx 0 = true → X f = nan ∨ PrimFloat.eqb (X f) 0 = true)
  ∧ (PrimFloat.ltb 0 dy = true → Y f = nan ∨ PrimFloat.leb (Y f) 0 = true)
  ∧ (PrimFloat.ltb dy 0 = true → Y f = nan ∨ PrimFloat.leb 0 (Y f) = true)
  ∧ (PrimFloat.eqb dy 0 = true → Y f = nan ∨ PrimFloat.eqb (Y f) 0 = true).
Proof.
  intros Ha Hb f dx dy.
  pose proof (mass_product_unsigned _ _ Ha Hb) as Hk.
  pose proof (length_unsigned dx dy) as Hl.
  subst f. unfold calculateGravitationalForce, Normalize, Length.
  cbn [f64_add f64_sub f64_mul f64_div f64_neg f64_sqrt binary64 X Y].
  fold dx dy.
  revert Hk Hl.
  generalize (gravitation * mass b * mass a)%float (PrimFloat.sqrt (dx * dx + dy * dy)).
  intros k length Hk Hl.
  destruct (attract_component dx k length Hk Hl) as [Hx1 Hx2].
  destruct (attract_component dy k length Hk Hl) as [Hy1 Hy2].
  split; [exact Hx1|]. split; [exact Hx2|]. split; [exact (zero_component dx k length)|].
  split; [exact Hy1|]. split; [exact Hy2|exact (zero_component dy k length)].
Qed.

(** *** Negation up to the sign of a zero *)

Lemma is_zero_opp x : is_zero (SFopp x) = is_zero x.
Proof. by destruct x. Qed.

Lemma negated_sub x y : negated (SF64sub x y) (SF64sub y x).
Proof.
  destruct (is_zero (SF64sub x y)) eqn:Hz.
  - destruct (is_zero (SF64sub y x)) eqn:Hz'; [by right|].
    pose proof (SF64sub_swap _ _ Hz') as Hs. rewrite Hs, is_zero_opp in Hz. congruence.
  - left. by apply SF64sub_swap.
Qed.

Lemma negated_square d d' : negated d d' → SF64mul d' d' = SF64mul d d.
Proof.
  intros [-> | [Hz Hz']].
  - by rewrite SF64mul_opp_l, SF64mul_opp_r, SFopp_involutive.
  - destruct d as [[]|[]| |[] ? ?], d' as [[]|[]| |[] ? ?]; done.
Qed.

Lemma negated_div d d' l : negated d d' → negated (SF64div d l) (SF64div d' l).
Proof.
  intros [-> | [Hz Hz']].
  - left. apply SF64div_opp_l.
  - destruct d as [sd|?| |? ? ?], d' as [sd'|?| |? ? ?]; try done.
    destruct l as [sl|sl| |sl ml el]; simpl; (by left) || (by right).
Qed.

Lemma negated_mul g u u' : negated u u' → negated (SF64mul g u) (SF64mul g u').
Proof.
  intros [-> | [Hz Hz']].
  - left. apply SF64mul_opp_r.
  - destruct u as [su|?| |? ? ?], u' as [su'|?| |? ? ?]; try done.
    destruct g as [sg|sg| |sg mg eg]; simpl; (by left) || (by right).
Qed.

Lemma SFcompare_refl x : x ≠ S754_nan → SFcompare x x = Some Eq.
Proof.
  destruct x as [[]|[]| |[] m e]; simpl; try done; intros _;
    rewrite ?Z.compare_refl, ?Pos.compare_cont_spec, ?Pos.compare_refl; done.
Qed.

(** Negation up to the sign of a zero is what [==] sees, unless both
    values are not-a-number. *)
Lemma negated_eqb (x y : float) :
  negated (Prim2SF x) (Prim2SF y) →
  (x = nan ∧ y = nan) ∨ PrimFloat.eqb x (- y) = true.
Proof.
  intros [Hy | [Hz Hz']].
  - destruct (Prim2SF x) eqn:Hx.
    4:{ right. rewrite FloatAxioms.eqb_spec, FloatAxioms.opp_spec, Hy, SFopp_involutive, Hx.
        unfold SFeqb. by rewrite SFcompare_refl. }
    3:{ left. split; apply is_nan_spec; [done|by rewrite Hy]. }
    all: right; rewrite FloatAxioms.eqb_spec, FloatAxioms.opp_spec, Hy, SFopp_involutive, Hx;
      unfold SFeqb; by rewrite SFcompare_refl.
  - right. rewrite FloatAxioms.eqb_spec, FloatAxioms.opp_spec.
    by destruct (Prim2SF x) as [[]|[]| |[] ? ?], (Prim2SF y) as [[]|[]| |[] ? ?].
Qed.

(** The two forces between [a] and [b], when the two products of the
    masses round alike: each component of the one is the negation of the
    component of the other, up to the sign of a zero. *)
Lemma force_negated (a b : SpaceObject float) :
  (gravitation * mass b * mass a = gravitation * mass a * mass b)%float →
  negated (Prim2SF (X (calculateGravitationalForce a b)))
          (Prim2SF (X (calculateGravitationalForce b a)))
  ∧ negated (Prim2SF (Y (calculateGravitationalForce a b)))
            (Prim2SF (Y (calculateGravitationalForce b a))).
Proof.
  intros Hm. unfold calculateGravitationalForce, Normalize, Length.
  cbn [f64_add f64_sub f64_mul f64_div f64_neg f64_sqrt binary64 X Y position].
  rewrite <- Hm.
  generalize (gravitation * mass b * mass a)%float. intros k.
  pose proof (negated_sub (Prim2SF (X (position a))) (Prim2SF (X (position b)))) as Hx.
  pose proof (negated_sub (Prim2SF (Y (position a))) (Prim2SF (Y (position b)))) as Hy.
  rewrite <- !FloatAxioms.sub_spec in Hx, Hy.
  revert Hx Hy.
  generalize (X (position a) - X (position b))%float (X (position b) - X (position a))%float
             (Y (position a) - Y (position b))%float (Y (position b) - Y (position a))%float.
  intros dx dx' dy dy' Hx Hy.
  rewrite !FloatAxioms.mul_spec, !FloatAxioms.opp_spec, !FloatAxioms.div_spec,
    !FloatAxioms.mul_spec, !FloatAxioms.sqrt_spec, !FloatAxioms.add_spec, !FloatAxioms.mul_spec.
  rewrite (negated_square _ _ Hx), (negated_square _ _ Hy).
  split; by apply negated_mul, negated_div.
Qed.

Lemma force_opposite_eqb (a b : SpaceObject float) :
  (gravitation * mass b * mass a = gravitation * mass a * mass b)%float →
  let f := calculateGravitationalForce a b in
  let f' := calculateGravitationalForce b a in
  ((X f = nan ∧ X f' = nan) ∨ PrimFloat.eqb (X f) (- X f') = true)
  ∧ ((Y f = nan ∧ Y f' = nan) ∨ PrimFloat.eqb (Y f) (- Y f') = true).
Proof.
  intros Hm f f'. destruct (force_negated a b Hm) as [Hx Hy].
  split; by apply negated_eqb.
Qed.

Lemma negated_mul_l u u' t : negated u u' → negated (SF64mul u t) (SF64mul u' t).
Proof.
  intros [-> | [Hz Hz']].
  - left. apply SF64mul_opp_l.
  - destruct u as [su|?| |? ? ?], u' as [su'|?| |? ? ?]; try done.
    destruct t as [st|st| |st mt et]; simpl; (by left) || (by right).
Qed.

(** The velocity changes of two objects of equal mass, from the forces
    they put on each other. *)
Lemma kicks_negated (a b : SpaceObject float) :
  mass a = mass b →
  let f := calculateGravitationalForce a b in
  let f' := calculateGravitationalForce b a in
  negated (Prim2SF (X f / mass a * dt)%float) (Prim2SF (X f' / mass b * dt)%float)
  ∧ negated (Prim2SF (Y f / mass a * dt)%float) (Prim2SF (Y f' / mass b * dt)%float).
Proof.
  intros Hm f f'.
  destruct (force_negated a b) as [Hx Hy]; [by rewrite Hm|].
  rewrite <- Hm, !FloatAxioms.mul_spec, !FloatAxioms.div_spec.
  split; by apply negated_mul_l, negated_div.
Qed.

(** *** Two objects *)

(** One step of a world of two objects, in every arithmetic. *)
Lemma Update_pair `{Float64 F} (s : State F) (a b : SpaceObject F) :
  NoDup (spaceObjects (game s)) → bodies s = Some [a; b] →
  ∃ s' a' b', Update s = Some (nilError, s')
    ∧ bodies s' = Some [a'; b']
    ∧ mass a' = mass a ∧ mass b' = mass b
    ∧ velocity a' = kick (mass a) (velocity a) (calculateGravitationalForce a b)
    ∧ velocity b' = kick (mass b) (velocity b) (calculateGravitationalForce b a).
Proof.
  intros Hnd Hb.
  destruct (Update_run s [a; b] Hnd Hb) as (s' & E & _ & Hb' & _).
  eexists s', _, _. split; [done|]. split; [exact Hb'|]. done.
Qed.
End SignFacts.

(** * The claims *)

Import NBody NBodyFacts Worlds Binary64Facts.

(** C1 (as amended). In the N-body variant every force computation of a
    step reads the positions the objects had before the step, and no
    position is assigned before the last force computation.  In the
    two-body variant the planet's position is assigned first: the one force
    computation reads the spacecraft's position from before the step and the
    planet's position from after it. *)
Theorem C1_force_reads_and_position_writes {F : Type} {A : Float64 F} :
  (∀ s : State F, world s →
     ∃ s' tr, Update s = Some (nilError, s') ∧ trace s' = trace s ++ tr
       ∧ reads_pre_tick (λ so, position <$> heap s !! so) tr
       ∧ no_write_before_read tr)
  ∧ (∀ g : TwoBody.Game F,
       let p := TwoBody.p_position (TwoBody.planet g) in
       let v := TwoBody.p_velocity (TwoBody.planet g) in
       let moved := mkVector (X p + X v * TwoBody.dt)%f64 (Y p + Y v * TwoBody.dt)%f64 in
       ∃ w1 w3 w4,
         (TwoBody.Update g).2
         = [PositionWrite TwoBody.planet_id w1;
            PositionWrite TwoBody.planet_id moved;
            ForceRead TwoBody.spacecraft_id TwoBody.planet_id
              (TwoBody.position (TwoBody.spacecraft g)) moved;
            PositionWrite TwoBody.spacecraft_id w3;
            PositionWrite TwoBody.spacecraft_id w4]).
Proof.
  split.
  - intros s [Hnd [objs Hobjs]].
    destruct (Update_run s objs Hnd Hobjs) as (s' & E & _ & _ & _ & Htr).
    exists s', (forceReads (spaceObjects (game s)) objs
                ++ positionWrites (spaceObjects (game s)) (attractAll objs)).
    split; [done|]. split; [done|].
    apply reads_then_writes.
    + apply forceReads_no_write.
    + apply positionWrites_write.
    + intros t src pt ps
        (i & j & t' & src' & a & b & _ & Hi & Ha & Hj & Hb & [= -> -> -> ->])%elem_of_forceReads.
      apply bodies_Some in Hobjs.
      rewrite (Forall2_lookup_lr _ _ _ _ _ _ Hobjs Hi Ha).
      by rewrite (Forall2_lookup_lr _ _ _ _ _ _ Hobjs Hj Hb).
  - intros g. simpl. by eexists _, _, _.
Qed.

Lemma C1_witness :
  world NewGame
  ∧ ∃ s' tr, Update NewGame = Some (nilError, s') ∧ trace s' = trace NewGame ++ tr
      ∧ reads_pre_tick (λ so, position <$> heap NewGame !! so) tr
      ∧ no_write_before_read tr.
Proof.
  split; [exact NewGame_world|].
  exact (proj1 C1_force_reads_and_position_writes NewGame NewGame_world).
Defined.

(** C1 as stated fails on [main.go]: at the initial game the force
    computation reads the planet at (0, -14400), not at (0, 0) where it was
    before the step, and two position assignments precede it. *)
Lemma C1_counterexample :
  ¬ reads_pre_tick (TwoBody.position_of TwoBody.NewGame) (TwoBody.Update TwoBody.NewGame).2
  ∧ ¬ no_write_before_read (TwoBody.Update TwoBody.NewGame).2.
Proof.
  split.
  - intros Hr.
    destruct (Hr 2%nat TwoBody.spacecraft_id TwoBody.planet_id _ _ eq_refl) as [_ Hp].
    apply Some_vector_Y in Hp. revert Hp. apply float_neq. by vm_compute.
  - intros Hw.
    by specialize (Hw 2%nat 0%nat _ _ _ _ eq_refl (ltac:(lia)) _ eq_refl).
Qed.

(** C2 (as amended). In the N-body variant one step gives every object of
    the slice the force of every other object, each applied to its velocity
    in slice order, and then moves it with the new velocity.  In the
    two-body variant the planet is exempt: its velocity stays and it moves
    in a straight line. *)
Theorem C2_every_object_is_attracted {F : Type} {A : Float64 F} :
  (∀ (s : State F) objs,
     NoDup (spaceObjects (game s)) → bodies s = Some objs →
     ∃ s', Update s = Some (nilError, s')
       ∧ ∀ i so o, spaceObjects (game s) !! i = Some so → objs !! i = Some o →
           ∃ o', heap s' !! so = Some o'
             ∧ velocity o'
               = foldl (kick (mass o)) (velocity o)
                   (calculateGravitationalForce o <$> others i objs)
             ∧ position o' = drift (position o) (velocity o'))
  ∧ (∀ g : TwoBody.Game F,
       let g' := (TwoBody.Update g).1.1 in
       let p := TwoBody.p_position (TwoBody.planet g) in
       let v := TwoBody.p_velocity (TwoBody.planet g) in
       TwoBody.p_velocity (TwoBody.planet g') = v
       ∧ TwoBody.p_position (TwoBody.planet g')
         = mkVector (X p + X v * TwoBody.dt)%f64 (Y p + Y v * TwoBody.dt)%f64).
Proof.
  split; [|done].
  intros s objs Hnd Hobjs.
  destruct (Update_lookup s objs Hnd Hobjs) as (s' & E & _ & Hh & _).
  exists s'. split; [done|]. intros i so o Hi Ho.
  eexists. split; [by eapply Hh|]. simpl.
  destruct (attract_fields o (others i objs)) as (_ & _ & -> & _).
  by rewrite attract_velocity.
Qed.

Lemma C2_witness :
  NoDup (spaceObjects (game NewGame)) ∧ bodies NewGame = Some [Earth; Moon; Spacecraft]
  ∧ ∃ s', Update NewGame = Some (nilError, s')
      ∧ ∀ i so o, spaceObjects (game NewGame) !! i = Some so →
          [Earth; Moon; Spacecraft] !! i = Some o →
          ∃ o', heap s' !! so = Some o'
            ∧ velocity o'
              = foldl (kick (mass o)) (velocity o)
                  (calculateGravitationalForce o <$> others i [Earth; Moon; Spacecraft])
            ∧ position o' = drift (position o) (velocity o').
Proof.
  split; [exact NewGame_NoDup|]. split; [exact NewGame_bodies|].
  exact (proj1 C2_every_object_is_attracted NewGame _ NewGame_NoDup NewGame_bodies).
Defined.

(** C2 as stated fails on [main.go]: at the initial game the planet's
    velocity is the same after the step, although the force the spacecraft
    puts on it, applied for dt, would change it. *)
Lemma C2_counterexample :
  let g := TwoBody.NewGame in
  let planet := TwoBody.planet g in
  let force := TwoBody.gravityOnSpacecraft g (TwoBody.p_position planet)
                 (TwoBody.position (TwoBody.spacecraft g)) in
  TwoBody.p_velocity (TwoBody.planet (TwoBody.Update g).1.1) = TwoBody.p_velocity planet
  ∧ (X (TwoBody.p_velocity planet) + (X force / TwoBody.p_mass planet) * TwoBody.dt)%f64
    ≠ X (TwoBody.p_velocity planet).
Proof.
  split; [done|]. apply float_neq. by vm_compute.
Qed.

(** C3. The integrator is semi-implicit Euler: [UpdateVelocity] followed by
    [UpdatePosition] leaves velocity + (F/m)*dt in the velocity and
    position + (velocity + (F/m)*dt)*dt in the position, and so does the
    two-body step for the spacecraft.  It holds in every arithmetic and for
    every mass. *)
Theorem C3_semi_implicit_euler {F : Type} {A : Float64 F} :
  (∀ (s : State F) so o force,
     heap s !! so = Some o →
     ∃ s' o',
       (UpdateVelocity so force;; UpdatePosition so) s = Some ((), s')
       ∧ heap s' !! so = Some o'
       ∧ velocity o'
         = mkVector (X (velocity o) + (X force / mass o) * dt)%f64
                    (Y (velocity o) + (Y force / mass o) * dt)%f64
       ∧ position o'
         = mkVector
             (X (position o) + (X (velocity o) + (X force / mass o) * dt) * dt)%f64
             (Y (position o) + (Y (velocity o) + (Y force / mass o) * dt) * dt)%f64)
  ∧ (∀ g : TwoBody.Game F,
       let sc := TwoBody.spacecraft g in
       let g' := (TwoBody.Update g).1.1 in
       let force := TwoBody.gravityOnSpacecraft g (TwoBody.position sc)
                      (TwoBody.p_position (TwoBody.planet g')) in
       TwoBody.velocity (TwoBody.spacecraft g')
       = mkVector
           (X (TwoBody.velocity sc) + (X force / TwoBody.mass sc) * TwoBody.dt)%f64
           (Y (TwoBody.velocity sc) + (Y force / TwoBody.mass sc) * TwoBody.dt)%f64
       ∧ TwoBody.position (TwoBody.spacecraft g')
         = mkVector
             (X (TwoBody.position sc)
              + (X (TwoBody.velocity sc) + (X force / TwoBody.mass sc) * TwoBody.dt)
                * TwoBody.dt)%f64
             (Y (TwoBody.position sc)
              + (Y (TwoBody.velocity sc) + (Y force / TwoBody.mass sc) * TwoBody.dt)
                * TwoBody.dt)%f64).
Proof.
  split.
  - intros s so o force Hso.
    exists (mkState (game s) (<[so := move (accelerate o force)]> (heap s))
              (trace s ++ positionWrites [so] [accelerate o force])),
           (move (accelerate o force)).
    split; [|split; [by simpl; rewrite lookup_insert_eq|done]].
    rewrite (bind_run _ _ _ _ _ (UpdateVelocity_run _ _ _ force Hso)).
    rewrite (UpdatePosition_run _ so (accelerate o force)); simpl.
    + by rewrite insert_insert_eq.
    + by rewrite lookup_insert_eq.
  - intros g. simpl. done.
Qed.

Lemma C3_witness :
  let force := mkVector (f64_const 1e20) (f64_const (-3e19)) in
  heap NewGame !! 1%nat = Some Moon
  ∧ ∃ s' o',
      (UpdateVelocity 1%nat force;; UpdatePosition 1%nat) NewGame = Some ((), s')
      ∧ heap s' !! 1%nat = Some o'
      ∧ velocity o'
        = mkVector (X (velocity Moon) + (X force / mass Moon) * dt)%f64
                   (Y (velocity Moon) + (Y force / mass Moon) * dt)%f64
      ∧ position o'
        = mkVector
            (X (position Moon) + (X (velocity Moon) + (X force / mass Moon) * dt) * dt)%f64
            (Y (position Moon) + (Y (velocity Moon) + (Y force / mass Moon) * dt) * dt)%f64.
Proof.
  intros force. split; [reflexivity|].
  exact (proj1 C3_semi_implicit_euler NewGame 1%nat Moon force eq_refl).
Defined.

Import ExactFacts ExactFacts2.

Import Binary64Values MoreWorlds.

(** C4 (as amended). The force on [a] due to [b] is the float64
    evaluation, operation by operation, of -F*u with
    F = (G*m_b*m_a)/(r*r), r = sqrt(dx*dx + dy*dy) and u = (dx/r, dy/r); the
    two-body step computes the same function for the spacecraft.  In
    binary64, for positive masses, the force attracts: each component is
    not-a-number, or it is zero or points from [a] towards [b], and along a
    coordinate in which the objects do not differ it is zero or
    not-a-number.  In exact arithmetic, for different positions and
    non-negative masses, the force is -F times the unit vector from [b] to
    [a] and has length F = G*m_a*m_b/r^2 with G = 6.67430e-11. *)
Theorem C4_law_of_gravitation :
  (∀ (F : Type) (A : Float64 F) (a b : SpaceObject F),
     let d := mkVector (X (position a) - X (position b))%f64
                       (Y (position a) - Y (position b))%f64 in
     let r := f64_sqrt (X d * X d + Y d * Y d)%f64 in
     let Fm := (gravitation * mass b * mass a / (r * r))%f64 in
     calculateGravitationalForce a b
     = mkVector (- Fm * (X d / r))%f64 (- Fm * (Y d / r))%f64
     ∧ ∀ g : TwoBody.Game F,
         TwoBody.p_mass (TwoBody.planet g) = mass b →
         TwoBody.mass (TwoBody.spacecraft g) = mass a →
         TwoBody.gravityOnSpacecraft g (position a) (position b)
         = calculateGravitationalForce a b)
  ∧ (∀ a b : SpaceObject float,
       PrimFloat.ltb 0 (mass a) = true → PrimFloat.ltb 0 (mass b) = true →
       let f := calculateGravitationalForce a b in
       let dx := (X (position a) - X (position b))%float in
       let dy := (Y (position a) - Y (position b))%float in
       (PrimFloat.ltb 0 dx = true → X f = nan ∨ PrimFloat.leb (X f) 0 = true)
       ∧ (PrimFloat.ltb dx 0 = true → X f = nan ∨ PrimFloat.leb 0 (X f) = true)
       ∧ (PrimFloat.eqb dx 0 = true → X f = nan ∨ PrimFloat.eqb (X f) 0 = true)
       ∧ (PrimFloat.ltb 0 dy = true → Y f = nan ∨ PrimFloat.leb (Y f) 0 = true)
       ∧ (PrimFloat.ltb dy 0 = true → Y f = nan ∨ PrimFloat.leb 0 (Y f) = true)
       ∧ (PrimFloat.eqb dy 0 = true → Y f = nan ∨ PrimFloat.eqb (Y f) 0 = true))
  ∧ (∀ a b : SpaceObject R,
       position a ≠ position b → (0 <= mass a)%R → (0 <= mass b)%R →
       let d := mkVector (X (position a) - X (position b))%R
                         (Y (position a) - Y (position b))%R in
       let r := R_sqrt.sqrt (X d * X d + Y d * Y d)%R in
       let Fm := (6.67430e-11 * mass a * mass b / (r * r))%R in
       (0 < r)%R
       ∧ calculateGravitationalForce a b
         = mkVector (- Fm * (X d / r))%R (- Fm * (Y d / r))%R
       ∧ (X d / r * (X d / r) + Y d / r * (Y d / r) = 1)%R
       ∧ Length (calculateGravitationalForce a b) = Fm).
Proof.
  split; [|split].
  - intros F A a b d r Fm. split; [reflexivity|].
    intros g Hmb Hma. unfold TwoBody.gravityOnSpacecraft, calculateGravitationalForce.
    by rewrite Hmb, Hma.
  - intros a b Ha Hb. exact (SignFacts.force_attracts a b Ha Hb).
  - intros a b Hne Ha Hb d r Fm.
    destruct (force_law a b Hne Ha Hb) as (Hr & Hforce & Hlen).
    assert (@gravitation R exact = 6.67430e-11%R) as HG.
    { rewrite gravitation_exact. lra. }
    unfold Length in Hr, Hforce, Hlen at 2. exact_arith.
    rewrite HG in Hforce, Hlen.
    repeat split; try done.
    pose proof (Length_sqr d) as Hr2. unfold Length in Hr2. exact_arith.
    assert (0 < r)%R as Hr' by exact Hr.
    fold r in Hr2. simpl in Hr2. simpl.
    transitivity ((r * r) / (r * r))%R; [|field; lra].
    rewrite Hr2 at 1. field. lra.
Qed.

Lemma C4_witness :
  (PrimFloat.ltb 0 (mass Moon) = true ∧ PrimFloat.ltb 0 (mass Earth) = true
   ∧ PrimFloat.ltb 0 (X (position Moon) - X (position Earth)) = true
   ∧ PrimFloat.eqb (Y (position Moon) - Y (position Earth)) 0 = true
   ∧ (X (calculateGravitationalForce Moon Earth) = nan
      ∨ PrimFloat.leb (X (calculateGravitationalForce Moon Earth)) 0 = true)
   ∧ (Y (calculateGravitationalForce Moon Earth) = nan
      ∨ PrimFloat.eqb (Y (calculateGravitationalForce Moon Earth)) 0 = true))
  ∧ position exactA ≠ position exactB ∧ (0 <= mass exactA)%R ∧ (0 <= mass exactB)%R
  ∧ Length (calculateGravitationalForce exactA exactB)
    = (6.67430e-11 * 3 * 7 / (R_sqrt.sqrt ((0 - 3) * (0 - 3) + (0 - 4) * (0 - 4))
                               * R_sqrt.sqrt ((0 - 3) * (0 - 3) + (0 - 4) * (0 - 4))))%R.
Proof.
  assert (position exactA ≠ position exactB) as Hne.
  { intros [= H1 H2]. lra. }
  assert (0 <= mass exactA)%R as Ha by (simpl; lra).
  assert (0 <= mass exactB)%R as Hb by (simpl; lra).
  pose proof (proj1 (proj2 C4_law_of_gravitation) Moon Earth eq_refl eq_refl)
    as (Hx & _ & _ & _ & _ & Hy).
  split.
  { split; [reflexivity|]. split; [reflexivity|]. split; [reflexivity|].
    split; [reflexivity|]. split; [exact (Hx eq_refl)|exact (Hy eq_refl)]. }
  split; [exact Hne|]. split; [exact Ha|]. split; [exact Hb|].
  exact (proj2 (proj2 (proj2 (proj2 (proj2 C4_law_of_gravitation) exactA exactB Hne Ha Hb)))).
Defined.

(** C4 as stated fails in binary64.  For masses 3 and 7 at (0,0) and (3,4)
    the distance is 5 and the length of the computed force is not
    G*m_a*m_b/25.  For two masses of 1e160 kg at (0,0) and (3e10,4e10) both
    components of the force are infinite, while G*m_a/(r*r)*m_b is finite.
    For two masses of 1e-100 kg that are 1e-170 m apart the squared
    distance underflows to zero and the force is (infinity, not-a-number). *)
Lemma C4_counterexample :
  (let a := pointMass 3 0 0 in
   let b := pointMass 7 3 4 in
   let r := Length (mkVector (X (position a) - X (position b))%f64
                             (Y (position a) - Y (position b))%f64) in
   r = 5%float
   ∧ PrimFloat.eqb (Length (calculateGravitationalForce a b))
                   (gravitation * mass a * mass b / (r * r))%f64 = false)
  ∧ (let a := bigA in
     let b := bigB in
     let r := Length (mkVector (X (position a) - X (position b))%f64
                               (Y (position a) - Y (position b))%f64) in
     calculateGravitationalForce a b = mkVector infinity infinity
     ∧ PrimFloat.ltb (gravitation * mass a / (r * r) * mass b)%f64 infinity = true)
  ∧ (position tinyA ≠ position tinyB
     ∧ PrimFloat.ltb 0 (mass tinyA) = true ∧ PrimFloat.ltb 0 (mass tinyB) = true
     ∧ calculateGravitationalForce tinyA tinyB = mkVector infinity nan).
Proof.
  split; [split; by vm_compute|]. split; [split; by vm_compute|].
  split; [|repeat split; by vm_compute].
  intros Heq. apply (f_equal X) in Heq. revert Heq. apply float_neq. by vm_compute.
Qed.

(** C5 (as amended). In binary64, when the two products G*m_b*m_a and
    G*m_a*m_b of the two computations round to the same value, each
    component of the force on [a] due to [b] and the negation of the
    component of the force on [b] due to [a] are equal under [==], unless
    both are not-a-number; this holds whatever the positions are.  In exact
    arithmetic the two forces are negations of each other for every pair of
    objects at different positions. *)
Theorem C5_forces_are_opposite :
  (∀ a b : SpaceObject float,
     (gravitation * mass b * mass a = gravitation * mass a * mass b)%float →
     let f := calculateGravitationalForce a b in
     let f' := calculateGravitationalForce b a in
     ((X f = nan ∧ X f' = nan) ∨ PrimFloat.eqb (X f) (- X f') = true)
     ∧ ((Y f = nan ∧ Y f' = nan) ∨ PrimFloat.eqb (Y f) (- Y f') = true))
  ∧ (∀ a b : SpaceObject R,
       position a ≠ position b →
       X (calculateGravitationalForce a b) = (- X (calculateGravitationalForce b a))%R
       ∧ Y (calculateGravitationalForce a b) = (- Y (calculateGravitationalForce b a))%R).
Proof.
  split.
  - intros a b Hm. exact (SignFacts.force_opposite_eqb a b Hm).
  - intros a b _. by rewrite (force_antisymmetric a b).
Qed.

Lemma C5_witness :
  (gravitation * mass Spacecraft * mass Moon
   = gravitation * mass Moon * mass Spacecraft)%float
  ∧ ((X (calculateGravitationalForce Moon Spacecraft) = nan
      ∧ X (calculateGravitationalForce Spacecraft Moon) = nan)
     ∨ PrimFloat.eqb (X (calculateGravitationalForce Moon Spacecraft))
         (- X (calculateGravitationalForce Spacecraft Moon)) = true)
  ∧ position exactA ≠ position exactB
  ∧ X (calculateGravitationalForce exactA exactB)
    = (- X (calculateGravitationalForce exactB exactA))%R.
Proof.
  assert (position exactA ≠ position exactB) as Hne.
  { intros [= H1 H2]. lra. }
  split; [reflexivity|].
  split; [exact (proj1 (proj1 C5_forces_are_opposite Moon Spacecraft eq_refl))|].
  split; [exact Hne|].
  exact (proj1 (proj2 C5_forces_are_opposite exactA exactB Hne)).
Defined.

(** C5 as stated fails in binary64: for masses 3 and 7 at (0,0) and (3,4)
    the x components of the two forces are not negations of each other; and
    for two equal masses of 1e-100 kg that are 1e-170 m apart the y
    components are both not-a-number, which [==] never holds of. *)
Lemma C5_counterexample :
  (let a := pointMass 3 0 0 in
   let b := pointMass 7 3 4 in
   X (calculateGravitationalForce a b) ≠ (- X (calculateGravitationalForce b a))%f64)
  ∧ (position tinyA ≠ position tinyB
     ∧ PrimFloat.eqb (Y (calculateGravitationalForce tinyA tinyB))
         (- Y (calculateGravitationalForce tinyB tinyA)) = false).
Proof.
  split; [apply float_neq; by vm_compute|].
  split; [|by vm_compute].
  intros Heq. apply (f_equal X) in Heq. revert Heq. apply float_neq. by vm_compute.
Qed.

(** C6 (as amended). In the N-body variant one step of a world of two
    objects adds (F_ab/m_a)*dt to the velocity of the first and
    (F_ba/m_b)*dt to the velocity of the second, F being the forces at the
    positions before the step, and keeps the masses; this holds in every
    arithmetic.  In binary64, for two objects of equal mass, each component
    of the two velocity changes is the negation of the other under [==],
    unless both are not-a-number; no bound on the change of the total
    momentum holds in general.  In exact arithmetic, for positive masses at
    different positions, the total momentum is the same after any number of
    steps.  In the two-body variant the momentum is not conserved: the
    planet keeps its velocity, the spacecraft's changes by (F/m)*dt, and in
    exact arithmetic each step adds F*dt to the total. *)
Theorem C6_momentum_two_objects :
  (∀ (F : Type) (A : Float64 F) (s : State F) (a b : SpaceObject F),
     NoDup (spaceObjects (game s)) → bodies s = Some [a; b] →
     ∃ s' a' b', Update s = Some (nilError, s')
       ∧ bodies s' = Some [a'; b']
       ∧ mass a' = mass a ∧ mass b' = mass b
       ∧ velocity a' = kick (mass a) (velocity a) (calculateGravitationalForce a b)
       ∧ velocity b' = kick (mass b) (velocity b) (calculateGravitationalForce b a))
  ∧ (∀ a b : SpaceObject float,
       mass a = mass b →
       let f := calculateGravitationalForce a b in
       let f' := calculateGravitationalForce b a in
       let dva := mkVector (X f / mass a * dt)%float (Y f / mass a * dt)%float in
       let dvb := mkVector (X f' / mass b * dt)%float (Y f' / mass b * dt)%float in
       kick (mass a) (velocity a) f
       = mkVector (X (velocity a) + X dva)%float (Y (velocity a) + Y dva)%float
       ∧ kick (mass b) (velocity b) f'
         = mkVector (X (velocity b) + X dvb)%float (Y (velocity b) + Y dvb)%float
       ∧ ((X dva = nan ∧ X dvb = nan) ∨ PrimFloat.eqb (X dva) (- X dvb) = true)
       ∧ ((Y dva = nan ∧ Y dvb = nan) ∨ PrimFloat.eqb (Y dva) (- Y dvb) = true))
  ∧ (∀ (F : Type) (A : Float64 F) (g : TwoBody.Game F),
       let g' := (TwoBody.Update g).1.1 in
       let sc := TwoBody.spacecraft g in
       let force := TwoBody.gravityOnSpacecraft g (TwoBody.position sc)
                      (TwoBody.p_position (TwoBody.planet g')) in
       TwoBody.p_velocity (TwoBody.planet g') = TwoBody.p_velocity (TwoBody.planet g)
       ∧ TwoBody.p_mass (TwoBody.planet g') = TwoBody.p_mass (TwoBody.planet g)
       ∧ TwoBody.mass (TwoBody.spacecraft g') = TwoBody.mass sc
       ∧ TwoBody.velocity (TwoBody.spacecraft g')
         = mkVector
             (X (TwoBody.velocity sc) + (X force / TwoBody.mass sc) * TwoBody.dt)%f64
             (Y (TwoBody.velocity sc) + (Y force / TwoBody.mass sc) * TwoBody.dt)%f64)
  ∧ (∀ (n : nat) (s : State R) (a b : SpaceObject R),
       NoDup (spaceObjects (game s)) → bodies s = Some [a; b] →
       (0 < mass a)%R → (0 < mass b)%R → position a ≠ position b →
       ∃ s' a' b', Updates n s = Some (nilError, s')
         ∧ bodies s' = Some [a'; b']
         ∧ momentum [a'; b'] = momentum [a; b])
  ∧ (∀ g : TwoBody.Game R,
       (0 < TwoBody.mass (TwoBody.spacecraft g))%R →
       let g' := (TwoBody.Update g).1.1 in
       let force := TwoBody.gravityOnSpacecraft g (TwoBody.position (TwoBody.spacecraft g))
                      (TwoBody.p_position (TwoBody.planet g')) in
       TwoBody.momentum g'
       = mkVector (X (TwoBody.momentum g) + X force * TwoBody.dt)%R
                  (Y (TwoBody.momentum g) + Y force * TwoBody.dt)%R).
Proof.
  split; [|split; [|split; [|split]]].
  - intros F A s a b Hnd Hb. exact (SignFacts.Update_pair s a b Hnd Hb).
  - intros a b Hm f f' dva dvb.
    destruct (SignFacts.kicks_negated a b Hm) as [Hx Hy].
    split; [reflexivity|]. split; [reflexivity|].
    split; by apply SignFacts.negated_eqb.
  - intros F A g g' sc force. subst g' force sc.
    rewrite TwoBodyFacts.Update_game. cbv zeta.
    cbn [TwoBody.planet TwoBody.spacecraft TwoBody.p_velocity TwoBody.p_mass
         TwoBody.p_position TwoBody.mass TwoBody.velocity].
    done.
  - intros n s a b Hnd Hb Ha Hmb _. by apply Updates_two_momentum.
  - intros g Hm. apply TwoBody_momentum_change. lra.
Qed.

Lemma C6_witness :
  (NoDup (spaceObjects (game twins)) ∧ bodies twins = Some [twinA; twinB]
   ∧ ∃ s' a' b', Update twins = Some (nilError, s')
       ∧ bodies s' = Some [a'; b']
       ∧ mass a' = mass twinA ∧ mass b' = mass twinB
       ∧ velocity a' = kick (mass twinA) (velocity twinA)
                         (calculateGravitationalForce twinA twinB)
       ∧ velocity b' = kick (mass twinB) (velocity twinB)
                         (calculateGravitationalForce twinB twinA))
  ∧ (mass twinA = mass twinB
     ∧ ((X (calculateGravitationalForce twinA twinB) / mass twinA * dt = nan
         ∧ X (calculateGravitationalForce twinB twinA) / mass twinB * dt = nan)%float
        ∨ PrimFloat.eqb
            (X (calculateGravitationalForce twinA twinB) / mass twinA * dt)%float
            (- (X (calculateGravitationalForce twinB twinA) / mass twinB * dt))%float
          = true))
  ∧ NoDup (spaceObjects (game exactPair)) ∧ bodies exactPair = Some [exactA; exactB]
  ∧ (0 < mass exactA)%R ∧ (0 < mass exactB)%R ∧ position exactA ≠ position exactB
  ∧ ∃ s' a' b', Updates 2 exactPair = Some (nilError, s')
      ∧ bodies s' = Some [a'; b']
      ∧ momentum [a'; b'] = momentum [exactA; exactB].
Proof.
  assert (NoDup (spaceObjects (game twins))) as Hnd by compute_done.
  assert (bodies twins = Some [twinA; twinB]) as Hb by reflexivity.
  assert (0 < mass exactA)%R as Ha by (simpl; lra).
  assert (0 < mass exactB)%R as Hmb by (simpl; lra).
  assert (position exactA ≠ position exactB) as Hne.
  { intros [= H1 H2]. lra. }
  split.
  { split; [exact Hnd|]. split; [exact Hb|].
    exact (proj1 C6_momentum_two_objects float binary64 twins twinA twinB Hnd Hb). }
  split.
  { split; [reflexivity|].
    exact (proj1 (proj2 (proj2
             (proj1 (proj2 C6_momentum_two_objects) twinA twinB eq_refl)))). }
  split; [exact exactPair_NoDup|]. split; [exact exactPair_bodies|].
  split; [exact Ha|]. split; [exact Hmb|]. split; [exact Hne|].
  exact (proj1 (proj2 (proj2 (proj2 C6_momentum_two_objects))) 2%nat exactPair exactA exactB
           exactPair_NoDup exactPair_bodies Ha Hmb Hne).
Defined.

(** C6 as stated fails on [main.go]: for a planet of 6e24 kg and a
    spacecraft of 7e22 kg at rest 1e8 m apart the total momentum is zero
    before the step and below -4e24 kg m/s after it.  It fails in the
    N-body variant in binary64 too: for two masses of 1e-100 kg at rest,
    1e-170 m apart, the total momentum is (0,0) before the step and
    not-a-number in both components after it. *)
Lemma C6_counterexample :
  (let g := heavyPair in
   let g' := (TwoBody.Update g).1.1 in
   X (TwoBody.momentum g) = f64_const 0
   ∧ PrimFloat.ltb (X (TwoBody.momentum g')) (f64_const (-4e24)) = true)
  ∧ (position tinyA ≠ position tinyB
     ∧ PrimFloat.ltb 0 (mass tinyA) = true ∧ PrimFloat.ltb 0 (mass tinyB) = true
     ∧ momentum [tinyA; tinyB] = mkVector 0%float 0%float
     ∧ ∃ s' objs', Update tinyPair = Some (nilError, s')
         ∧ bodies s' = Some objs'
         ∧ momentum objs' = mkVector nan nan).
Proof.
  split; [split; by vm_compute|].
  split.
  { intros Heq. apply (f_equal X) in Heq. revert Heq. apply float_neq. by vm_compute. }
  split; [by vm_compute|]. split; [by vm_compute|]. split; [by vm_compute|].
  assert (NoDup (spaceObjects (game tinyPair))) as Hnd by compute_done.
  assert (bodies tinyPair = Some [tinyA; tinyB]) as Hb by reflexivity.
  destruct (Update_run tinyPair [tinyA; tinyB] Hnd Hb) as (s' & E & _ & Hb' & _).
  exists s', (stepAll (game tinyPair) [tinyA; tinyB]).
  split; [exact E|]. split; [exact Hb'|]. by vm_compute.
Qed.

(** C7. The inner loop skips an object by its index in the slice, whatever
    the positions are: the forces computed in one step are those of the
    pairs of different indices, exactly, so no object pulls on itself; in a
    world of one object no force is computed, the net force is the zero
    vector and the velocity stays. *)
Theorem C7_no_self_force {F : Type} {A : Float64 F}
    (s : State F) (objs : list (SpaceObject F)) :
  NoDup (spaceObjects (game s)) → bodies s = Some objs →
  ∃ s' tr, Update s = Some (nilError, s') ∧ trace s' = trace s ++ tr
    ∧ (∀ t src pt ps, ForceRead t src pt ps ∈ tr ↔
         ∃ i j a b, i ≠ j
           ∧ spaceObjects (game s) !! i = Some t ∧ objs !! i = Some a
           ∧ spaceObjects (game s) !! j = Some src ∧ objs !! j = Some b
           ∧ pt = position a ∧ ps = position b)
    ∧ (∀ t src pt ps, ForceRead t src pt ps ∈ tr → t ≠ src)
    ∧ (∀ so, spaceObjects (game s) = [so] →
         (∀ e, e ∈ tr → isPositionWrite e = true)
         ∧ ∃ o o', objs = [o] ∧ heap s' !! so = Some o'
             ∧ TwoPhase.NetForceOn o (others 0 objs) = TwoPhase.zero
             ∧ velocity o' = velocity o).
Proof.
  intros Hnd Hobjs.
  destruct (Update_lookup s objs Hnd Hobjs) as (s' & E & Hg & Hh & Hf & Htr).
  exists s', (forceReads (spaceObjects (game s)) objs
              ++ positionWrites (spaceObjects (game s)) (attractAll objs)).
  split; [done|]. split; [done|].
  assert (∀ t src pt ps,
    ForceRead t src pt ps ∈ forceReads (spaceObjects (game s)) objs
                             ++ positionWrites (spaceObjects (game s)) (attractAll objs) ↔
    ForceRead t src pt ps ∈ forceReads (spaceObjects (game s)) objs) as Hin.
  { intros t src pt ps. rewrite elem_of_app. split; [|by left].
    intros [?|Hw]; [done|].
    by eapply Forall_forall in Hw; [|apply positionWrites_write]. }
  assert (∀ t src pt ps,
    ForceRead t src pt ps ∈ forceReads (spaceObjects (game s)) objs ↔
    ∃ i j a b, i ≠ j
      ∧ spaceObjects (game s) !! i = Some t ∧ objs !! i = Some a
      ∧ spaceObjects (game s) !! j = Some src ∧ objs !! j = Some b
      ∧ pt = position a ∧ ps = position b) as Hpairs.
  { intros t src pt ps. rewrite elem_of_forceReads. split.
    - intros (i & j & t' & src' & a & b & Hne & Hi & Ha & Hj & Hb & [= -> -> -> ->]).
      by exists i, j, a, b.
    - intros (i & j & a & b & Hne & Hi & Ha & Hj & Hb & -> & ->).
      by exists i, j, t, src, a, b. }
  split; [|split].
  - intros t src pt ps. by rewrite Hin, Hpairs.
  - intros t src pt ps (i & j & a & b & Hne & Hi & _ & Hj & _)%Hin%Hpairs ->.
    apply Hne. by eapply NoDup_lookup.
  - intros so Hone. split.
    + intros e [He|He]%elem_of_app.
      * apply elem_of_forceReads in He as (i & j & t & src & a & b & Hne & Hi & _ & Hj & _).
        rewrite Hone in Hi, Hj. apply list_lookup_singleton_Some in Hi as [-> _].
        by apply list_lookup_singleton_Some in Hj as [-> _].
      * by eapply Forall_forall in He; [|apply positionWrites_write].
    + apply bodies_Some in Hobjs. rewrite Hone in Hobjs.
      apply Forall2_cons_inv_l in Hobjs as (o & objs' & Hso & ->%Forall2_nil_inv_l & ->).
      exists o. eexists. split; [done|].
      split; [eapply (Hh 0%nat); [by rewrite Hone|done]|]. done.
Qed.

Lemma C7_witness :
  NoDup (spaceObjects (game NewGame)) ∧ bodies NewGame = Some [Earth; Moon; Spacecraft]
  ∧ ∃ s' tr, Update NewGame = Some (nilError, s') ∧ trace s' = trace NewGame ++ tr
      ∧ ∀ t src pt ps, ForceRead t src pt ps ∈ tr → t ≠ src.
Proof.
  split; [exact NewGame_NoDup|]. split; [exact NewGame_bodies|].
  destruct (C7_no_self_force NewGame _ NewGame_NoDup NewGame_bodies)
    as (s' & tr & E & Htr & _ & Hself & _).
  exists s', tr. split; [exact E|]. split; [exact Htr|]. exact Hself.
Defined.

(** C8. The step is a function of the masses, positions, velocities and the
    time: two worlds that agree on them agree on them after the step,
    whatever their names, images, scaled positions, window sizes, traces or
    addresses are.  In binary64 the agreement is equality of the values. *)
Theorem C8_step_is_deterministic {F : Type} {A : Float64 F} :
  (∀ s1 s2 : State F, world s1 → world s2 → view s1 = view s2 →
     ∃ s1' s2', Update s1 = Some (nilError, s1') ∧ Update s2 = Some (nilError, s2')
       ∧ view s1' = view s2')
  ∧ (∀ g1 g2 : TwoBody.Game F, TwoBody.view g1 = TwoBody.view g2 →
       TwoBody.view (TwoBody.Update g1).1.1 = TwoBody.view (TwoBody.Update g2).1.1).
Proof.
  split.
  - intros s1 s2 [Hnd1 [objs1 Hobjs1]] [Hnd2 [objs2 Hobjs2]] Hview.
    destruct (Update_run s1 objs1 Hnd1 Hobjs1) as (s1' & E1 & Hg1 & Hb1 & _).
    destruct (Update_run s2 objs2 Hnd2 Hobjs2) as (s2' & E2 & Hg2 & Hb2 & _).
    exists s1', s2'. repeat split; try done.
    unfold view in *. rewrite Hobjs1, Hobjs2 in Hview. rewrite Hb1, Hb2, Hg1, Hg2.
    simpl in *. injection Hview as Hphys Htime.
    by rewrite (stepAll_physics _ (game s2) _ objs2 Hphys), Htime.
  - intros [sw1 sh1 [pm1 pp1 pv1 pi1 pq1] [sm1 sp1 sv1 si1 sq1] t1]
           [sw2 sh2 [pm2 pp2 pv2 pi2 pq2] [sm2 sp2 sv2 si2 sq2] t2].
    unfold TwoBody.view at 1 2. simpl. intros [= -> -> -> -> -> -> ->].
    reflexivity.
Qed.

Lemma C8_witness :
  world NewGame ∧ world NewGameResized ∧ view NewGame = view NewGameResized
  ∧ ∃ s1' s2', Update NewGame = Some (nilError, s1')
      ∧ Update NewGameResized = Some (nilError, s2')
      ∧ view s1' = view s2'.
Proof.
  split; [exact NewGame_world|]. split; [exact NewGameResized_world|].
  split; [exact NewGameResized_view|].
  exact (proj1 C8_step_is_deterministic NewGame NewGameResized
           NewGame_world NewGameResized_world NewGameResized_view).
Defined.

(** C9. [Update] returns the nil error: for every world of the N-body
    variant (and every game of the two-body variant) the call returns, the
    clock is advanced by dt, and nothing but the objects of the slice
    changes; of an object, the name, the mass, the images and the colour
    stay.  No condition on masses or positions is needed. *)
Theorem C9_update_returns_nil {F : Type} {A : Float64 F} :
  (∀ s : State F, world s →
     ∃ s', Update s = Some (nilError, s')
       ∧ game s' = mkGame (screenWidth (game s)) (screenHeight (game s))
                     (spaceObjects (game s)) (time (game s) + dt)%f64
       ∧ (∀ so, so ∉ spaceObjects (game s) → heap s' !! so = heap s !! so)
       ∧ (∀ so o, so ∈ spaceObjects (game s) → heap s !! so = Some o →
            ∃ o', heap s' !! so = Some o'
              ∧ name o' = name o ∧ mass o' = mass o ∧ img o' = img o
              ∧ pathImg o' = pathImg o ∧ color o' = color o))
  ∧ (∀ g : TwoBody.Game F,
       let g' := (TwoBody.Update g).1.1 in
       (TwoBody.Update g).1.2 = nilError
       ∧ TwoBody.time g' = (TwoBody.time g + TwoBody.dt)%f64
       ∧ TwoBody.screenWidth g' = TwoBody.screenWidth g
       ∧ TwoBody.screenHeight g' = TwoBody.screenHeight g
       ∧ TwoBody.p_mass (TwoBody.planet g') = TwoBody.p_mass (TwoBody.planet g)
       ∧ TwoBody.mass (TwoBody.spacecraft g') = TwoBody.mass (TwoBody.spacecraft g)).
Proof.
  split; [|done].
  intros s [Hnd [objs Hobjs]].
  destruct (Update_lookup s objs Hnd Hobjs) as (s' & E & Hg & Hh & Hf & _).
  exists s'. repeat split; try done.
  intros so o [i Hi]%list_elem_of_lookup Hso.
  apply bodies_Some in Hobjs.
  destruct (Forall2_lookup_l _ _ _ _ _ Hobjs Hi) as (o1 & Ho1 & Hso1).
  assert (o1 = o) as -> by congruence.
  eexists. split; [by eapply Hh|]. simpl.
  by destruct (attract_fields o (others i objs)) as (-> & -> & _ & _ & -> & -> & ->).
Qed.

Lemma C9_witness :
  world NewGame
  ∧ ∃ s', Update NewGame = Some (nilError, s')
      ∧ time (game s') = (time (game NewGame) + dt)%f64.
Proof.
  split; [exact NewGame_world|].
  destruct (proj1 C9_update_returns_nil NewGame NewGame_world) as (s' & E & Hg & _).
  exists s'. split; [exact E|]. rewrite Hg. reflexivity.
Defined.

(** C10 (as amended). Updating the velocity inside the pairwise loop gives,
    in every arithmetic, the state of the two-phase step that computes every
    pairwise force from the objects as they were before the step and applies
    them to the velocity one by one in slice order; in exact arithmetic this
    is the state of the strict two-phase step, which sums the forces on an
    object to a net force first.  (In binary64 the sum of the forces and the
    sum of the velocity changes round differently.) *)
Theorem C10_loop_nest_is_two_phase :
  (∀ {F : Type} {A : Float64 F} (s : State F) objs,
     NoDup (spaceObjects (game s)) → bodies s = Some objs →
     ∃ s', Update s = Some (nilError, s')
       ∧ bodies s'
         = Some (imap (λ i o, rescale (game s)
                   (move (foldl accelerate o
                     (calculateGravitationalForce o <$> others i objs)))) objs))
  ∧ (∀ (s : State R) objs,
       NoDup (spaceObjects (game s)) → bodies s = Some objs →
       ∃ s', Update s = Some (nilError, s')
         ∧ view s' = (Some (physics <$> TwoPhase.Step objs), (time (game s) + dt)%R)).
Proof.
  split.
  - intros F A s objs Hnd Hobjs.
    destruct (Update_run s objs Hnd Hobjs) as (s' & E & _ & Hb & _).
    exists s'. split; [done|]. rewrite Hb. f_equal.
    apply list_eq. intros i. rewrite stepAll_lookup, list_lookup_imap.
    by destruct (objs !! i).
  - intros s objs Hnd Hobjs.
    destruct (Update_run s objs Hnd Hobjs) as (s' & E & Hg & Hb & _).
    exists s'. split; [done|]. unfold view. rewrite Hb, Hg. simpl.
    by rewrite stepAll_two_phase.
Qed.

Lemma C10_witness :
  NoDup (spaceObjects (game exactPair)) ∧ bodies exactPair = Some [exactA; exactB]
  ∧ ∃ s', Update exactPair = Some (nilError, s')
      ∧ view s' = (Some (physics <$> TwoPhase.Step [exactA; exactB]),
                   (time (game exactPair) + dt)%R).
Proof.
  split; [exact exactPair_NoDup|]. split; [exact exactPair_bodies|].
  exact (proj2 C10_loop_nest_is_two_phase exactPair _ exactPair_NoDup exactPair_bodies).
Defined.

(** C10 as stated fails in binary64: at the initial game of three objects
    the velocity of the first object after [Update] is not the one the
    strict two-phase step gives. *)
Lemma C10_counterexample :
  (λ r, fmap (M:=option) (fmap (M:=list) physics) (bodies r.2)) <$> Update NewGame
  ≠ (λ objs, Some (physics <$> TwoPhase.Step objs)) <$> bodies NewGame.
Proof.
  intros Heq.
  apply (f_equal (λ r, match r with
                       | Some (Some ((_, _, v) :: _)) => X v
                       | _ => f64_const 0
                       end)) in Heq.
  revert Heq. apply float_neq. by vm_compute.
Qed.

(** * The step on an arbitrary slice *)

Module PanicFacts.
Import NBody NBodyFacts Host.
Section Run.
Context `{Float64 F}.
Implicit Types (s : State F) (o a b : SpaceObject F) (so : loc).

Lemma kept_refl s : kept s s.
Proof. done. Qed.

Lemma kept_trans s0 s1 s2 : kept s0 s1 → kept s1 s2 → kept s0 s2.
Proof.
  intros (Ha & Hb & Hc & Hd) (Ha' & Hb' & Hc' & Hd').
  repeat split; congruence.
Qed.

Lemma dom_insert_Some (h : gmap loc (SpaceObject F)) so o o' :
  h !! so = Some o → dom (<[so := o']> h) = dom h.
Proof.
  intros Hso. rewrite dom_insert_L.
  apply subseteq_union_1_L, singleton_subseteq_l, elem_of_dom. by eexists.
Qed.

(** A loop that stops at the first panic. *)
Lemma forRange_Some_inv {A} (I : State F → Prop) (body : nat → A → M ()) (l : list A) :
  (∀ k x s s', body k x s = Some ((), s') → I s → I s') →
  ∀ i s s', forRange body i l s = Some ((), s') → I s → I s'.
Proof.
  intros Hbody. induction l as [|x l IH]; intros i s s' Hrun Hs.
  - by injection Hrun as <-.
  - cbn [forRange] in Hrun. unfold mbind, M_bind in Hrun.
    destruct (body i x s) as [[[] s1]|] eqn:E; [|done].
    eapply IH; [exact Hrun|]. by eapply Hbody.
Qed.

Lemma forRange_None {A} (I : State F → Prop) (body : nat → A → M ()) (l : list A) x :
  (∀ k y s s', body k y s = Some ((), s') → I s → I s') →
  x ∈ l → (∀ k s, I s → body k x s = None) →
  ∀ i s, I s → forRange body i l s = None.
Proof.
  intros Hbody Hx Hfail. induction l as [|y l IH]; intros i s Hs.
  - by apply elem_of_nil in Hx.
  - cbn [forRange]. unfold mbind, M_bind.
    destruct (body i y s) as [[[] s1]|] eqn:E; [|done].
    apply elem_of_cons in Hx as [->|Hx].
    + by rewrite Hfail in E.
    + apply IH; [done|]. by eapply Hbody.
Qed.

Lemma forRange_Some {A} (I : State F → Prop) (body : nat → A → M ()) (l : list A) :
  (∀ k x s, x ∈ l → I s → ∃ s', body k x s = Some ((), s') ∧ I s') →
  ∀ i s, I s → ∃ s', forRange body i l s = Some ((), s') ∧ I s'.
Proof.
  induction l as [|x l IH]; intros Hbody i s Hs.
  - by exists s.
  - destruct (Hbody i x s) as (s1 & E & Hs1); [by left|done|].
    destruct (IH (λ k y s Hy, Hbody k y s (proj2 (elem_of_cons _ _ _) (or_intror Hy))) (S i) s1 Hs1)
      as (s2 & E2 & Hs2).
    exists s2. split; [|done]. cbn [forRange]. by rewrite (bind_run _ _ _ _ _ E).
Qed.

Lemma kept_lookup s0 s so : kept s0 s → is_Some (heap s !! so) ↔ is_Some (heap s0 !! so).
Proof. intros (_ & _ & _ & Hdom). by rewrite <- !elem_of_dom, Hdom. Qed.

Lemma store_kept s so o o' :
  heap s !! so = Some o → kept s (mkState (game s) (<[so := o']> (heap s)) (trace s)).
Proof. intros Hso. repeat split; simpl; try done. by eapply dom_insert_Some. Qed.

(** Each statement of the step panics exactly on a pointer without an
    object, and otherwise keeps what [kept] lists. *)
Lemma pull_steps s so1 so2 :
  match pull so1 so2 s with
  | Some (_, s') => is_Some (heap s !! so1) ∧ is_Some (heap s !! so2) ∧ kept s s'
  | None => heap s !! so1 = None ∨ heap s !! so2 = None
  end.
Proof.
  destruct (heap s !! so1) as [a|] eqn:Ha; [destruct (heap s !! so2) as [b|] eqn:Hb|].
  - rewrite (pull_run s so1 so2 a b Ha Hb).
    repeat split; try by eexists.
    simpl. by eapply dom_insert_Some.
  - unfold pull. rewrite (bind_run _ _ _ _ _ (load_run _ _ _ Ha)).
    unfold mbind, M_bind, load. rewrite Hb. by right.
  - unfold pull, mbind, M_bind, load. rewrite Ha. by left.
Qed.

Lemma place_run s so o :
  heap s !! so = Some o →
  place so s = Some ((), mkState (game s) (<[so := rescale (game s) (move o)]> (heap s))
                          (trace s ++ positionWrites [so] [o])).
Proof.
  intros Hso. unfold place.
  rewrite (bind_run _ _ _ _ _ (UpdatePosition_run _ _ _ Hso)).
  unfold mbind, M_bind, load, getGame, store. simpl.
  rewrite lookup_insert_eq. simpl. by rewrite insert_insert_eq.
Qed.

Lemma place_steps s so :
  match place so s with
  | Some (_, s') => is_Some (heap s !! so) ∧ kept s s'
  | None => heap s !! so = None
  end.
Proof.
  destruct (heap s !! so) as [o|] eqn:Hso.
  - rewrite (place_run s so o Hso). split; [by eexists|].
    repeat split; simpl; try done. by eapply dom_insert_Some.
  - unfold place, UpdatePosition, mbind, M_bind, load. by rewrite Hso.
Qed.

Lemma updatePositions_place s : updatePositions s = forRange (λ _, place) 0 (spaceObjects (game s)) s.
Proof. reflexivity. Qed.

Lemma updateVelocities_pull s :
  updateVelocities s
  = forRange (λ i so1, g ← getGame;
       forRange (λ j so2, if decide (j = i) then mret () else pull so1 so2)
         0 (spaceObjects g)) 0 (spaceObjects (game s)) s.
Proof. reflexivity. Qed.

Lemma inner_kept s0 i so1 : ∀ l j s s',
  forRange (λ j so2, if decide (j = i) then mret () else pull so1 so2) j l s = Some ((), s') →
  kept s0 s → kept s0 s'.
Proof.
  intros l j s s'. apply forRange_Some_inv. clear. intros k so2 s s' Hrun Hs.
  destruct (decide (k = i)); [by injection Hrun as <-|].
  pose proof (pull_steps s so1 so2) as Hp. rewrite Hrun in Hp.
  eapply kept_trans; [done|]. apply Hp.
Qed.

Lemma updateVelocities_kept s s' : updateVelocities s = Some ((), s') → kept s s'.
Proof.
  rewrite updateVelocities_pull. intros Hrun.
  eapply (forRange_Some_inv (kept s)); [|exact Hrun|apply kept_refl].
  intros k so1 s1 s2 Hbody Hs1. unfold mbind, M_bind, getGame in Hbody.
  by eapply inner_kept.
Qed.

Lemma updateVelocities_allocated s :
  allocated s → ∃ s', updateVelocities s = Some ((), s') ∧ kept s s'.
Proof.
  intros Hall. rewrite updateVelocities_pull.
  apply (forRange_Some (kept s)); [|apply kept_refl].
  intros i so1 s1 Hso1 Hs1. unfold mbind at 1, M_bind at 1, getGame at 1.
  destruct Hs1 as (Hptrs & Hw & Hh & Hdom). rewrite Hptrs.
  destruct (forRange_Some (kept s1)
    (λ j so2, if decide (j = i) then mret () else pull so1 so2)
    (spaceObjects (game s))) with (i := 0%nat) (s := s1) as (s2 & E & Hs2);
    [|apply kept_refl|].
  - intros j so2 s2 Hso2 Hs2. destruct (decide (j = i)); [by exists s2|].
    pose proof (pull_steps s2 so1 so2) as Hp.
    assert (kept s s2) as Hss2 by (by eapply kept_trans).
    destruct (pull so1 so2 s2) as [[[] s3]|].
    + exists s3. split; [done|]. eapply kept_trans; [done|]. apply Hp.
    + exfalso. destruct Hp as [Hn|Hn];
        [apply Hall, (kept_lookup _ _ _ Hss2) in Hso1
        |apply Hall, (kept_lookup _ _ _ Hss2) in Hso2];
        rewrite Hn in *; by destruct Hso1 || by destruct Hso2.
  - exists s2. split; [done|]. by eapply kept_trans.
Qed.

Lemma updatePositions_kept s s' : updatePositions s = Some ((), s') → kept s s'.
Proof.
  rewrite updatePositions_place. intros Hrun.
  eapply (forRange_Some_inv (kept s)); [|exact Hrun|apply kept_refl].
  intros k so s1 s2 Hbody Hs1.
  pose proof (place_steps s1 so) as Hp. rewrite Hbody in Hp.
  eapply kept_trans; [done|]. apply Hp.
Qed.

Lemma updatePositions_allocated s :
  allocated s → ∃ s', updatePositions s = Some ((), s') ∧ kept s s'.
Proof.
  intros Hall. rewrite updatePositions_place.
  apply (forRange_Some (kept s)); [|apply kept_refl].
  intros i so s1 Hso Hs1. pose proof (place_steps s1 so) as Hp.
  destruct (place so s1) as [[[] s2]|].
  - exists s2. split; [done|]. eapply kept_trans; [done|]. apply Hp.
  - apply Hall, (kept_lookup _ _ _ Hs1) in Hso. rewrite Hp in Hso. by destruct Hso.
Qed.

Lemma updatePositions_dangling s so :
  so ∈ spaceObjects (game s) → heap s !! so = None → updatePositions s = None.
Proof.
  intros Hso Hnone. rewrite updatePositions_place.
  apply (forRange_None (kept s) _ _ so); [|done| |apply kept_refl].
  - intros k so' s1 s2 Hbody Hs1.
    pose proof (place_steps s1 so') as Hp. rewrite Hbody in Hp.
    eapply kept_trans; [done|]. apply Hp.
  - intros k s1 Hs1. pose proof (place_steps s1 so) as Hp.
    destruct (place so s1) as [[[] s2]|]; [|done].
    destruct Hp as [Hsome _]. apply (kept_lookup _ _ _ Hs1) in Hsome.
    rewrite Hnone in Hsome. by destruct Hsome.
Qed.

Lemma allocated_kept s s' : kept s s' → allocated s → allocated s'.
Proof.
  intros Hk Hall so Hso. destruct Hk as (Hptrs & ?). rewrite Hptrs in Hso.
  apply (kept_lookup s s'); [done|]. by apply Hall.
Qed.

Lemma not_allocated s :
  ¬ allocated s → ∃ so, so ∈ spaceObjects (game s) ∧ heap s !! so = None.
Proof.
  intros Hnot.
  destruct (decide (Exists (λ so, ¬ is_Some (heap s !! so)) (spaceObjects (game s))))
    as [Hex|Hnex].
  - apply Exists_exists in Hex as (so & Hso & Hn). exists so. split; [done|].
    destruct (heap s !! so); [|done]. exfalso. apply Hn. by eexists.
  - exfalso. apply Hnot. intros so Hso.
    destruct (heap s !! so) eqn:E; [by eexists|].
    exfalso. apply Hnex, Exists_exists. exists so. split; [done|].
    rewrite E. by intros [? ?].
Qed.

End Run.
End PanicFacts.

(** * Steps in sequence and their position accesses *)

Module StepFacts.
Import NBody NBodyFacts Host PanicFacts.
Section Run.
Context `{Float64 F}.
Implicit Types (s : State F) (o a b : SpaceObject F) (so : loc).
Implicit Types (ptrs : list loc) (objs bs : list (SpaceObject F)).

Lemma getGame_run {A} (k : Game F → M A) s : (getGame ≫= k) s = k (game s) s.
Proof. reflexivity. Qed.

Lemma ret_run {A} (k : () → M (F:=F) A) s : (mret () ≫= k) s = k () s.
Proof. reflexivity. Qed.

Lemma Updates_S (n : nat) s s1 :
  Update s = Some (nilError, s1) → Updates (S n) s = Updates n s1.
Proof. intros E. cbn [Updates]. by rewrite (bind_run _ _ _ _ _ E). Qed.

(** *** The number of force computations *)

Lemma length_others {A} i (l : list A) :
  (i < length l)%nat → length (others i l) = (length l - 1)%nat.
Proof.
  intros Hi. unfold others. rewrite length_app, length_take, length_drop. lia.
Qed.

Lemma length_concat_imap {A B} (g : nat → A → list B) (c : nat) (l : list A) :
  (∀ i x, l !! i = Some x → length (g i x) = c) →
  length (concat (imap g l)) = (length l * c)%nat.
Proof.
  revert g. induction l as [|x l IH]; intros g Hg; [done|].
  rewrite imap_cons. simpl. rewrite length_app, (Hg 0%nat x eq_refl).
  rewrite IH; [lia|]. intros i y Hi. by apply (Hg (S i)).
Qed.

Lemma length_forceReads ptrs objs :
  length ptrs = length objs →
  length (forceReads ptrs objs) = (length ptrs * (length ptrs - 1))%nat.
Proof.
  intros Hlen. unfold forceReads.
  rewrite (length_concat_imap _ (length ptrs - 1)%nat).
  - by rewrite length_zip_with_l_eq.
  - intros i p Hi. rewrite length_fmap, length_others.
    + by rewrite length_zip_with_l_eq.
    + by eapply lookup_lt_Some.
Qed.

Lemma length_positionWrites ptrs objs :
  length ptrs = length objs →
  length (positionWrites ptrs objs) = (2 * length ptrs)%nat.
Proof.
  intros Hlen. unfold positionWrites.
  rewrite <- (imap_const (λ p, [PositionWrite p.1 _; PositionWrite p.1 _])).
  rewrite (length_concat_imap _ 2%nat); [|done].
  rewrite length_zip_with_l_eq by done. lia.
Qed.
End Run.
End StepFacts.

(** * Binary64: not-a-number *)

Module Binary64NaN.
Import NBody NBodyFacts Binary64Values Binary64Sign StepFacts.


(** *** Not-a-number in binary64 *)

Lemma SF64sub_diag x :
  SF64sub x x = S754_zero false ∨ SF64sub x x = S754_nan.
Proof.
  destruct x as [[]|[]| |s m e]; simpl; auto.
  rewrite Z.sub_diag. by left.
Qed.

Lemma SF64_coincident dx dy k :
  (dx = S754_zero false ∨ dx = S754_nan) →
  (dy = S754_zero false ∨ dy = S754_nan) →
  let length := SF64sqrt (SF64add (SF64mul dx dx) (SF64mul dy dy)) in
  SF64mul (SFopp k) (SF64div dx length) = S754_nan
  ∧ SF64mul (SFopp k) (SF64div dy length) = S754_nan.
Proof.
  intros [-> | ->] [-> | ->]; by destruct k as [[]|[]| |[] m e].
Qed.

Lemma nan_add_l (x : float) : (nan + x)%float = nan.
Proof. apply Prim2SF_inj. rewrite FloatAxioms.add_spec. by destruct (Prim2SF x). Qed.

Lemma nan_add_r (x : float) : (x + nan)%float = nan.
Proof.
  apply Prim2SF_inj. rewrite FloatAxioms.add_spec.
  by destruct (Prim2SF x) as [[]|[]| |[] m e].
Qed.

Lemma nan_mul_l (x : float) : (nan * x)%float = nan.
Proof. apply Prim2SF_inj. rewrite FloatAxioms.mul_spec. by destruct (Prim2SF x). Qed.

Lemma nan_div_l (x : float) : (nan / x)%float = nan.
Proof. apply Prim2SF_inj. rewrite FloatAxioms.div_spec. by destruct (Prim2SF x). Qed.

(** Two objects at the same position: the distance is zero (or not a
    number), the direction is 0/0, and both components of the force are
    not-a-number, whatever the masses are. *)
Lemma force_coincident (a b : SpaceObject float) :
  position a = position b →
  calculateGravitationalForce a b = nanV.
Proof.
  intros Hp. unfold calculateGravitationalForce, Normalize, Length. rewrite Hp.
  cbn [f64_add f64_sub f64_mul f64_div f64_neg f64_sqrt binary64 X Y].
  set (dx := (X (position b) - X (position b))%float).
  set (dy := (Y (position b) - Y (position b))%float).
  set (length := PrimFloat.sqrt (dx * dx + dy * dy)).
  generalize (gravitation * mass b * mass a / (length * length))%float.
  intros k.
  destruct (SF64_coincident (Prim2SF dx) (Prim2SF dy) (Prim2SF k)) as [Hx Hy].
  { unfold dx. rewrite FloatAxioms.sub_spec. apply SF64sub_diag. }
  { unfold dy. rewrite FloatAxioms.sub_spec. apply SF64sub_diag. }
  unfold nanV. f_equal; apply is_nan_spec; unfold length;
    by rewrite FloatAxioms.mul_spec, FloatAxioms.opp_spec, FloatAxioms.div_spec,
      FloatAxioms.sqrt_spec, FloatAxioms.add_spec, !FloatAxioms.mul_spec.
Qed.

Lemma kick_nan_force (m : float) (v : Vector float) : kick m v nanV = nanV.
Proof.
  unfold kick, nanV. cbn [f64_add f64_mul f64_div binary64 X Y].
  rewrite !nan_div_l, !nan_mul_l, !nan_add_r. reflexivity.
Qed.

Lemma kick_nan_velocity (m : float) (f : Vector float) : kick m nanV f = nanV.
Proof.
  unfold kick, nanV. cbn [f64_add binary64 X Y].
  rewrite !nan_add_l. reflexivity.
Qed.

Lemma foldl_kick_nan_velocity (m : float) (fs : list (Vector float)) :
  foldl (kick m) nanV fs = nanV.
Proof. induction fs as [|f fs IH]; [done|]. simpl. by rewrite kick_nan_velocity. Qed.

Lemma foldl_kick_nan_force (m : float) (fs : list (Vector float)) (v : Vector float) :
  nanV ∈ fs → foldl (kick m) v fs = nanV.
Proof.
  intros (l1 & l2 & ->)%list_elem_of_split.
  rewrite foldl_app. simpl. by rewrite kick_nan_force, foldl_kick_nan_velocity.
Qed.

Lemma drift_nan (p : Vector float) : drift p nanV = nanV.
Proof.
  unfold drift, nanV. cbn [f64_add f64_mul binary64 X Y].
  rewrite !nan_mul_l, !nan_add_r. reflexivity.
Qed.

Lemma rescale_nan (g : Game float) (o : SpaceObject float) :
  position o = nanV → scaledPosition (rescale g o) = nanV.
Proof.
  intros Hp. unfold rescale, Translate, Scale. rewrite Hp.
  cbn [scaledPosition set_scaledPosition f64_add f64_mul binary64 X Y nanV].
  rewrite !nan_mul_l, !nan_add_l. reflexivity.
Qed.

(** The object [o] after a step in which an object at the same position
    is among the others. *)
Lemma step_coincident (g : Game float) (o b : SpaceObject float) bs :
  b ∈ bs → position o = position b →
  lost (rescale g (move (attract o bs))).
Proof.
  intros Hb Hp.
  assert (velocity (attract o bs) = nanV) as Hv.
  { rewrite attract_velocity. apply foldl_kick_nan_force.
    rewrite <- (force_coincident o b Hp). by apply list_elem_of_fmap_2. }
  assert (position (move (attract o bs)) = nanV) as Hm.
  { unfold move. cbn [position set_position]. by rewrite Hv, drift_nan. }
  split; [exact Hv|]. split; [exact Hm|]. by apply rescale_nan.
Qed.

(** An object whose velocity is not-a-number stays so, and so does its
    position. *)
Lemma step_nan (g : Game float) (o : SpaceObject float) bs :
  velocity o = nanV → lost (rescale g (move (attract o bs))).
Proof.
  intros Hv.
  assert (velocity (attract o bs) = nanV) as Hv'.
  { by rewrite attract_velocity, Hv, foldl_kick_nan_velocity. }
  assert (position (move (attract o bs)) = nanV) as Hm.
  { unfold move. cbn [position set_position]. by rewrite Hv', drift_nan. }
  split; [exact Hv'|]. split; [exact Hm|]. by apply rescale_nan.
Qed.

Lemma Updates_lost (n : nat) : ∀ (s : State float) so o,
  world s → so ∈ spaceObjects (game s) →
  heap s !! so = Some o → lost o →
  ∃ s' o', Updates n s = Some (nilError, s')
    ∧ heap s' !! so = Some o' ∧ lost o'.
Proof.
  induction n as [|n IH]; intros s so o Hw Hso Ho Hl.
  - by exists s, o.
  - destruct Hw as [Hnd [objs Hobjs]].
    destruct (Update_lookup s objs Hnd Hobjs) as (s1 & E1 & Hg1 & Hh1 & _).
    destruct (Update_world s (conj Hnd (ex_intro _ objs Hobjs))) as (s1' & E1' & Hw1).
    assert (s1' = s1) as -> by congruence.
    apply list_elem_of_lookup in Hso as [i Hi].
    pose proof Hobjs as Hall%bodies_Some.
    destruct (Forall2_lookup_l _ _ _ _ _ Hall Hi) as (o1 & Ho1 & Hso1).
    assert (o1 = o) as -> by congruence.
    assert (so ∈ spaceObjects (game s1)) as Hso1'.
    { rewrite Hg1. by eapply list_elem_of_lookup_2. }
    destruct (IH s1 so _ Hw1 Hso1' (Hh1 i so o Hi Ho1)
                (step_nan (game s) o (others i objs) (proj1 Hl)))
      as (s' & o' & E & Ho' & Hl').
    exists s', o'. by rewrite (Updates_S _ _ _ E1).
Qed.

End Binary64NaN.

(** * The two-body host loop *)

Module TwoBodyHostFacts.
Import TwoBody TwoBodyHost.

(** The planet is never accelerated: after any number of steps it has the
    velocity and the mass it started with, and the position that the
    repeated drift gives, whatever the spacecraft is. *)
Lemma Updates_planet `{Float64 F} (n : nat) : ∀ (g : Game F),
  let v := p_velocity (planet g) in
  planet (Updates n g)
  = mkPlanet (p_mass (planet g))
      (Nat.iter n (λ p, mkVector (X p + X v * dt)%f64 (Y p + Y v * dt)%f64)
         (p_position (planet g)))
      v (p_img (planet g)) (p_pathImg (planet g))
  ∧ mass (spacecraft (Updates n g)) = mass (spacecraft g)
  ∧ time (Updates n g) = Nat.iter n (λ t, t + dt)%f64 (time g)
  ∧ screenWidth (Updates n g) = screenWidth g
  ∧ screenHeight (Updates n g) = screenHeight g.
Proof.
  induction n as [|n IH]; intros g v.
  - by destruct g as [? ? [] ? ?].
  - cbn [Updates]. destruct (IH (Update g).1.1) as (Hp & Hm & Ht & Hw & Hh).
    rewrite Hp, Hm, Ht, Hw, Hh, !Nat.iter_succ_r.
    rewrite TwoBodyFacts.Update_game. cbv zeta.
    cbn [planet p_mass p_velocity p_position p_img p_pathImg spacecraft mass time
         screenWidth screenHeight]. done.
Qed.
End TwoBodyHostFacts.

(** * Further properties of the code *)

Import Host Random Binary64Values MoreWorlds.
Import PanicFacts StepFacts Binary64Sign Binary64NaN.

(** X1. [Update] of the N-body variant panics exactly when a pointer of
    the slice holds no object (the nil pointer, for one); this needs no
    distinctness of the pointers.  When it does not panic it returns nil,
    and the slice, the window size and the set of allocated objects are
    what they were. *)
Theorem X1_update_panics_iff_unallocated {F : Type} {A : Float64 F} (s : State F) :
  (allocated s → ∃ s', Update s = Some (nilError, s') ∧ kept s s')
  ∧ (¬ allocated s → Update s = None).
Proof.
  split.
  - intros Hall.
    destruct (updateVelocities_allocated s Hall) as (s1 & E1 & Hk1).
    destruct (updatePositions_allocated s1 (allocated_kept _ _ Hk1 Hall)) as (s2 & E2 & Hk2).
    unfold Update. rewrite (bind_run _ _ _ _ _ E1), (bind_run _ _ _ _ _ E2).
    eexists. split; [reflexivity|].
    destruct (kept_trans _ _ _ Hk1 Hk2) as (? & ? & ? & ?). by repeat split.
  - intros Hnot.
    destruct (not_allocated s Hnot) as (so & Hso & Hnone).
    unfold Update, mbind, M_bind.
    destruct (updateVelocities s) as [[[] s1]|] eqn:E1; [|done].
    pose proof (updateVelocities_kept s s1 E1) as Hk1.
    rewrite (updatePositions_dangling s1 so); [done|..].
    + destruct Hk1 as (-> & _). done.
    + destruct (heap s1 !! so) eqn:E; [|done].
      assert (is_Some (heap s !! so)) as [? ?]; [|congruence].
      apply (kept_lookup s s1); [done|by eexists].
Qed.

Lemma X1_witness :
  allocated NewGame ∧ ¬ allocated dangling
  ∧ (∃ s', Update NewGame = Some (nilError, s') ∧ kept NewGame s')
  ∧ Update dangling = None.
Proof.
  assert (allocated NewGame) as Hall.
  { intros so Hso. cbn in Hso.
    repeat (apply elem_of_cons in Hso as [-> | Hso]); [by eexists..|].
    by apply elem_of_nil in Hso. }
  assert (¬ allocated dangling) as Hnot.
  { intros Hd.
    assert (7%nat ∈ spaceObjects (game dangling)) as H7.
    { cbn. apply elem_of_cons. right. apply elem_of_cons. right. by left. }
    destruct (Hd 7%nat H7) as [o Ho]. vm_compute in Ho. discriminate Ho. }
  split; [exact Hall|]. split; [exact Hnot|].
  split.
  - exact (proj1 (X1_update_panics_iff_unallocated NewGame) Hall).
  - exact (proj2 (X1_update_panics_iff_unallocated dangling) Hnot).
Defined.

(** X2. [Layout] followed by [Update]: the step returns nil, the window has
    the size laid out, and every object's screen position is its position
    after the step, scaled by XScale and YScale and moved by half the new
    window size, the halves being the integer quotients truncated towards
    zero. *)
Theorem X2_layout_then_update_screen_position {F : Type} {A : Float64 F}
    (s : State F) (objs : list (SpaceObject F)) (w h : Z) :
  NoDup (spaceObjects (game s)) → bodies s = Some objs →
  ∃ s', (Host.Layout w h;; Update) s = Some (nilError, s')
    ∧ screenWidth (game s') = w ∧ screenHeight (game s') = h
    ∧ ∀ so, so ∈ spaceObjects (game s) →
        ∃ o', heap s' !! so = Some o'
          ∧ scaledPosition o'
            = mkVector (X (position o') * XScale + float64 (w ÷ 2))%f64
                       (Y (position o') * YScale + float64 (h ÷ 2))%f64.
Proof.
  intros Hnd Hobjs.
  set (s1 := mkState (mkGame w h (spaceObjects (game s)) (time (game s))) (heap s) (trace s)).
  assert (Host.Layout w h s = Some ((w, h), s1)) as EL by reflexivity.
  destruct (Update_lookup s1 objs Hnd Hobjs) as (s' & E & Hg & Hh & _).
  exists s'. split; [by rewrite (bind_run _ _ _ _ _ EL)|].
  rewrite Hg. split; [done|]. split; [done|].
  intros so [i Hi]%list_elem_of_lookup.
  apply bodies_Some in Hobjs.
  destruct (Forall2_lookup_l _ _ _ _ _ Hobjs Hi) as (o & Ho & _).
  eexists. split; [by eapply (Hh i)|]. reflexivity.
Qed.

Lemma X2_witness :
  NoDup (spaceObjects (game NewGame)) ∧ bodies NewGame = Some [Earth; Moon; Spacecraft]
  ∧ ∃ s', (Host.Layout 1081 721;; Update) NewGame = Some (nilError, s')
      ∧ screenWidth (game s') = 1081%Z ∧ screenHeight (game s') = 721%Z
      ∧ ∀ so, so ∈ spaceObjects (game NewGame) →
          ∃ o', heap s' !! so = Some o'
            ∧ scaledPosition o'
              = mkVector (X (position o') * XScale + float64 (1081 ÷ 2))%f64
                         (Y (position o') * YScale + float64 (721 ÷ 2))%f64.
Proof.
  split; [exact NewGame_NoDup|]. split; [exact NewGame_bodies|].
  exact (X2_layout_then_update_screen_position NewGame _ 1081 721
           NewGame_NoDup NewGame_bodies).
Defined.

(** X3. Any number of steps of a world (distinct pointers, all holding
    objects): no step panics, the result is nil and again a world; the
    slice and the window size are unchanged and the time has grown by dt
    once per step; objects outside the slice are untouched; every object of
    the slice keeps its name, mass, images and colour. *)
Theorem X3_steps_keep_the_world {F : Type} {A : Float64 F} (n : nat) :
  ∀ s : State F, world s →
  ∃ s', Updates n s = Some (nilError, s')
    ∧ world s'
    ∧ game s' = mkGame (screenWidth (game s)) (screenHeight (game s))
                  (spaceObjects (game s))
                  (Nat.iter n (λ t, t + dt)%f64 (time (game s)))
    ∧ (∀ so, so ∉ spaceObjects (game s) → heap s' !! so = heap s !! so)
    ∧ (∀ so o, so ∈ spaceObjects (game s) → heap s !! so = Some o →
         ∃ o', heap s' !! so = Some o'
           ∧ name o' = name o ∧ mass o' = mass o ∧ img o' = img o
           ∧ pathImg o' = pathImg o ∧ color o' = color o).
Proof.
  induction n as [|n IH]; intros s Hw.
  - exists s. split; [done|]. split; [done|]. split; [by destruct s as [[] ? ?]|].
    split; [done|]. intros so o _ Hso. by exists o.
  - destruct Hw as [Hnd [objs Hobjs]].
    destruct (Update_lookup s objs Hnd Hobjs) as (s1 & E1 & Hg1 & Hh1 & Hf1 & _).
    destruct (Update_world s (conj Hnd (ex_intro _ objs Hobjs))) as (s1' & E1' & Hw1).
    assert (s1' = s1) as -> by congruence.
    destruct (IH s1 Hw1) as (s' & E & Hw' & Hg & Hf & Hk).
    exists s'. split; [|split; [done|split; [|split]]].
    + by rewrite (Updates_S _ _ _ E1).
    + rewrite Hg, Hg1. cbn [screenWidth screenHeight spaceObjects time].
      by rewrite Nat.iter_succ_r.
    + intros so Hso. rewrite Hf, Hf1; [done..|by rewrite Hg1].
    + intros so o [i Hi]%list_elem_of_lookup Hso.
      apply bodies_Some in Hobjs.
      destruct (Forall2_lookup_l _ _ _ _ _ Hobjs Hi) as (o1 & Ho1 & Hso1).
      assert (o1 = o) as -> by congruence.
      destruct (Hk so _ (ltac:(rewrite Hg1; by eapply list_elem_of_lookup_2))
                  (Hh1 i so o Hi Ho1)) as (o' & Hso' & Hn & Hm & Hi' & Hp & Hc).
      exists o'. split; [done|]. simpl in *.
      by destruct (attract_fields o (others i objs)) as (<- & <- & _ & _ & <- & <- & <-).
Qed.

Lemma X3_witness :
  world NewGame
  ∧ ∃ s', Updates 3 NewGame = Some (nilError, s')
      ∧ world s'
      ∧ game s' = mkGame 0 0 [0; 1; 2]%nat
                    (Nat.iter 3 (λ t, t + dt)%f64 (f64_const 0))
      ∧ (∀ so, so ∉ spaceObjects (game NewGame) → heap s' !! so = heap NewGame !! so)
      ∧ (∀ so o, so ∈ spaceObjects (game NewGame) → heap NewGame !! so = Some o →
           ∃ o', heap s' !! so = Some o'
             ∧ name o' = name o ∧ mass o' = mass o ∧ img o' = img o
             ∧ pathImg o' = pathImg o ∧ color o' = color o).
Proof.
  split; [exact NewGame_world|].
  exact (X3_steps_keep_the_world 3 NewGame NewGame_world).
Defined.

(** X4. One step of a world of n objects computes n*(n-1) forces and then
    assigns 2*n position fields (X and Y of each object), and performs no
    other position access. *)
Theorem X4_step_access_counts {F : Type} {A : Float64 F}
    (s : State F) (objs : list (SpaceObject F)) :
  NoDup (spaceObjects (game s)) → bodies s = Some objs →
  ∃ s' fr pw, Update s = Some (nilError, s')
    ∧ trace s' = trace s ++ fr ++ pw
    ∧ Forall (λ e, isPositionWrite e = false) fr
    ∧ length fr = (length objs * (length objs - 1))%nat
    ∧ Forall (λ e, isPositionWrite e = true) pw
    ∧ length pw = (2 * length objs)%nat.
Proof.
  intros Hnd Hobjs.
  destruct (Update_run s objs Hnd Hobjs) as (s' & E & _ & _ & _ & Htr).
  pose proof Hobjs as Hlen%bodies_Some%Forall2_length.
  exists s', (forceReads (spaceObjects (game s)) objs),
    (positionWrites (spaceObjects (game s)) (attractAll objs)).
  split; [done|]. split; [done|].
  split; [apply forceReads_no_write|].
  split; [by rewrite length_forceReads, Hlen|].
  split; [apply positionWrites_write|].
  rewrite length_positionWrites; [by rewrite Hlen|].
  unfold attractAll. by rewrite length_imap.
Qed.

Lemma X4_witness :
  NoDup (spaceObjects (game NewGame)) ∧ bodies NewGame = Some [Earth; Moon; Spacecraft]
  ∧ ∃ s' fr pw, Update NewGame = Some (nilError, s')
      ∧ trace s' = trace NewGame ++ fr ++ pw
      ∧ Forall (λ e, isPositionWrite e = false) fr
      ∧ length fr = 6%nat
      ∧ Forall (λ e, isPositionWrite e = true) pw
      ∧ length pw = 6%nat.
Proof.
  split; [exact NewGame_NoDup|]. split; [exact NewGame_bodies|].
  exact (X4_step_access_counts NewGame _ NewGame_NoDup NewGame_bodies).
Defined.

(** X5. In binary64 the force between two objects at the same position is
    not-a-number in both components, whatever the masses and the position
    are: the distance is zero (or not a number), and the direction is the
    quotient 0/0. *)
Theorem X5_force_at_distance_zero (a b : SpaceObject float) :
  position a = position b → calculateGravitationalForce a b = nanV.
Proof. exact (force_coincident a b). Qed.

Lemma X5_witness :
  position (pointMass 3 1 2) = position (pointMass 7 1 2)
  ∧ calculateGravitationalForce (pointMass 3 1 2) (pointMass 7 1 2) = nanV.
Proof.
  split; [reflexivity|].
  exact (X5_force_at_distance_zero (pointMass 3 1 2) (pointMass 7 1 2) eq_refl).
Defined.

(** X6. In binary64, when two objects of a world are at the same position,
    then after the next step, and after every later one, the velocity, the
    position and the screen position of each of them are not-a-number. *)
Theorem X6_coincident_objects_are_lost (s : State float) (objs : list (SpaceObject float))
    (i j : nat) (so : loc) (o b : SpaceObject float) (n : nat) :
  world s → bodies s = Some objs →
  spaceObjects (game s) !! i = Some so → objs !! i = Some o →
  objs !! j = Some b → i ≠ j → position o = position b →
  ∃ s' o', Updates (S n) s = Some (nilError, s')
    ∧ heap s' !! so = Some o' ∧ lost o'.
Proof.
  intros [Hnd _] Hobjs Hi Ho Hb Hij Hp.
  destruct (Update_lookup s objs Hnd Hobjs) as (s1 & E1 & Hg1 & Hh1 & _).
  destruct (Update_world s (conj Hnd (ex_intro _ objs Hobjs))) as (s1' & E1' & Hw1).
  assert (s1' = s1) as -> by congruence.
  assert (b ∈ others i objs) as Hin by (apply elem_of_others; eauto).
  assert (so ∈ spaceObjects (game s1)) as Hso1.
  { rewrite Hg1. by eapply list_elem_of_lookup_2. }
  destruct (Updates_lost n s1 so _ Hw1 Hso1 (Hh1 i so o Hi Ho)
              (step_coincident (game s) o b _ Hin Hp))
    as (s' & o' & E & Ho' & Hl').
  exists s', o'. by rewrite (Updates_S _ _ _ E1).
Qed.

Lemma X6_witness :
  world collision ∧ bodies collision = Some [pointMass 3 1 2; pointMass 7 1 2]
  ∧ ∃ s' o', Updates 4 collision = Some (nilError, s')
      ∧ heap s' !! 0%nat = Some o' ∧ lost o'.
Proof.
  assert (bodies collision = Some [pointMass 3 1 2; pointMass 7 1 2]) as Hb
    by reflexivity.
  assert (world collision) as Hw.
  { split; [compute_done|]. rewrite Hb. by eexists. }
  split; [exact Hw|]. split; [exact Hb|].
  refine (X6_coincident_objects_are_lost collision _ 0 1 0%nat _ _ 3 Hw Hb
            eq_refl eq_refl eq_refl _ eq_refl).
  lia.
Defined.

(** X7. Newton's third law in binary64: when two objects differ in both
    coordinates and the two products gravitation*m2*m1 and
    gravitation*m1*m2 round alike, the forces they put on each other are
    negations of each other, bit for bit. *)
Theorem X7_forces_opposite_in_binary64 (a b : SpaceObject float) :
  PrimFloat.eqb (X (position a) - X (position b)) 0 = false →
  PrimFloat.eqb (Y (position a) - Y (position b)) 0 = false →
  (gravitation * mass b * mass a = gravitation * mass a * mass b)%float →
  X (calculateGravitationalForce a b) = (- X (calculateGravitationalForce b a))%float
  ∧ Y (calculateGravitationalForce a b) = (- Y (calculateGravitationalForce b a))%float.
Proof.
  intros Hx Hy Hm. unfold calculateGravitationalForce, Normalize, Length.
  cbn [f64_add f64_sub f64_mul f64_div f64_neg f64_sqrt binary64 X Y].
  rewrite (sub_swap _ _ Hx), (sub_swap _ _ Hy), <- Hm.
  generalize (X (position a) - X (position b))%float
             (Y (position a) - Y (position b))%float
             (gravitation * mass b * mass a)%float.
  intros dx dy k.
  rewrite !mul_opp_l, !mul_opp_r, !opp_involutive.
  rewrite !div_opp_l, !mul_opp_r.
  split; reflexivity.
Qed.

Lemma X7_witness :
  PrimFloat.eqb (X (position Moon) - X (position Spacecraft)) 0 = false
  ∧ PrimFloat.eqb (Y (position Moon) - Y (position Spacecraft)) 0 = false
  ∧ (gravitation * mass Spacecraft * mass Moon
     = gravitation * mass Moon * mass Spacecraft)%float
  ∧ X (calculateGravitationalForce Moon Spacecraft)
    = (- X (calculateGravitationalForce Spacecraft Moon))%float
  ∧ Y (calculateGravitationalForce Moon Spacecraft)
    = (- Y (calculateGravitationalForce Spacecraft Moon))%float.
Proof.
  split; [reflexivity|]. split; [reflexivity|]. split; [reflexivity|].
  exact (X7_forces_opposite_in_binary64 Moon Spacecraft eq_refl eq_refl eq_refl).
Defined.

(** X10. In the two-body variant the planet is never accelerated: after
    any number of steps it has the velocity, the mass and the images it
    started with, and its position is the repeated drift of the start
    position, whatever the spacecraft is and does.  The spacecraft keeps its
    mass, the window its size, and the time has grown by dt per step. *)
Theorem X10_planet_is_never_accelerated {F : Type} {A : Float64 F} (n : nat) :
  ∀ g : TwoBody.Game F,
  let v := TwoBody.p_velocity (TwoBody.planet g) in
  TwoBody.planet (TwoBodyHost.Updates n g)
  = TwoBody.mkPlanet (TwoBody.p_mass (TwoBody.planet g))
      (Nat.iter n (λ p, mkVector (X p + X v * TwoBody.dt)%f64 (Y p + Y v * TwoBody.dt)%f64)
         (TwoBody.p_position (TwoBody.planet g)))
      v (TwoBody.p_img (TwoBody.planet g)) (TwoBody.p_pathImg (TwoBody.planet g))
  ∧ TwoBody.mass (TwoBody.spacecraft (TwoBodyHost.Updates n g))
    = TwoBody.mass (TwoBody.spacecraft g)
  ∧ TwoBody.time (TwoBodyHost.Updates n g)
    = Nat.iter n (λ t, t + TwoBody.dt)%f64 (TwoBody.time g)
  ∧ TwoBody.screenWidth (TwoBodyHost.Updates n g) = TwoBody.screenWidth g
  ∧ TwoBody.screenHeight (TwoBodyHost.Updates n g) = TwoBody.screenHeight g.
Proof. exact (TwoBodyHostFacts.Updates_planet n). Qed.

(** X12. In the two-body variant [Layout] and [Update] commute: the step
    neither reads nor writes the window size, and [Layout] touches nothing
    else. *)
Theorem X12_layout_commutes_with_update {F : Type} {A : Float64 F}
    (g : TwoBody.Game F) (w h : Z) :
  TwoBody.Update (TwoBodyHost.Layout g w h).1
  = ((TwoBodyHost.Layout (TwoBody.Update g).1.1 w h).1,
     (TwoBody.Update g).1.2, (TwoBody.Update g).2)
  ∧ (TwoBodyHost.Layout g w h).2 = (w, h).
Proof. split; reflexivity. Qed.



(** X14. A slice that lists one object twice: the self test of [Update]
    compares the indices, not the pointers, so the object attracts itself,
    once in each pass of the outer loop, and the second loop moves it
    twice, each time by the velocity it has after both kicks. *)
Theorem X14_object_listed_twice {F : Type} {A : Float64 F}
    (s : State F) (p : loc) (o : SpaceObject F) :
  spaceObjects (game s) = [p; p] → heap s !! p = Some o →
  let f := calculateGravitationalForce o o in
  let o1 := accelerate (accelerate o f) f in
  let o2 := rescale (game s) (move o1) in
  let o3 := rescale (game s) (move o2) in
  ∃ s', Update s = Some (nilError, s')
    ∧ heap s' !! p = Some o3
    ∧ trace s' = trace s ++ [ForceRead p p (position o) (position o);
                             ForceRead p p (position o) (position o)]
                   ++ positionWrites [p; p] [o1; o2].
Proof.
  intros Hsl Ho f o1 o2 o3.
  pose proof (pull_run s p p o o Ho Ho) as E1. fold f in E1.
  set (s1 := mkState _ _ _) in E1.
  assert (heap s1 !! p = Some (accelerate o f)) as Ho1 by apply lookup_insert_eq.
  pose proof (pull_run s1 p p _ _ Ho1 Ho1) as E2.
  rewrite (force_physics (accelerate o f) o (accelerate o f) o) in E2 by done.
  fold f o1 in E2. set (s2 := mkState _ _ _) in E2.
  assert (heap s2 !! p = Some o1) as Ho2 by apply lookup_insert_eq.
  pose proof (place_run s2 p o1 Ho2) as E3. set (s3 := mkState _ _ _) in E3.
  assert (heap s3 !! p = Some o2) as Ho3 by apply lookup_insert_eq.
  pose proof (place_run s3 p o2 Ho3) as E4. set (s4 := mkState _ _ _) in E4.
  assert (updateVelocities s = Some ((), s2)) as EV.
  { rewrite updateVelocities_pull, Hsl. cbn [forRange].
    assert ((g ← getGame;
             forRange (λ j so2, if decide (j = 0%nat) then mret () else pull p so2)
               0 (spaceObjects g)) s = Some ((), s1)) as B0.
    { rewrite getGame_run, Hsl. cbn [forRange].
      destruct (decide (0 = 0)%nat); [|done]. destruct (decide (1 = 0)%nat); [done|].
      rewrite ret_run. by rewrite (bind_run _ _ _ _ _ E1). }
    assert ((g ← getGame;
             forRange (λ j so2, if decide (j = 1%nat) then mret () else pull p so2)
               0 (spaceObjects g)) s1 = Some ((), s2)) as B1.
    { rewrite getGame_run. cbn [game s1]. rewrite Hsl. cbn [forRange].
      destruct (decide (0 = 1)%nat); [done|]. destruct (decide (1 = 1)%nat); [|done].
      by rewrite (bind_run _ _ _ _ _ E2). }
    rewrite (bind_run _ _ _ _ _ B0). by rewrite (bind_run _ _ _ _ _ B1). }
  assert (updatePositions s2 = Some ((), s4)) as EP.
  { rewrite updatePositions_place. cbn [game s2 s1]. rewrite Hsl. cbn [forRange].
    rewrite (bind_run _ _ _ _ _ E3). by rewrite (bind_run _ _ _ _ _ E4). }
  eexists. split; [|split].
  - unfold Update. rewrite (bind_run _ _ _ _ _ EV), (bind_run _ _ _ _ _ EP). reflexivity.
  - cbn. rewrite lookup_insert_eq. reflexivity.
  - cbn. rewrite <- !app_assoc. reflexivity.
Qed.

Lemma X14_witness :
  spaceObjects (game aliased) = [0; 0]%nat ∧ heap aliased !! 0%nat = Some Earth
  ∧ ∃ s', Update aliased = Some (nilError, s')
      ∧ heap s' !! 0%nat
        = Some (rescale (game aliased) (move (rescale (game aliased) (move
            (accelerate (accelerate Earth (calculateGravitationalForce Earth Earth))
               (calculateGravitationalForce Earth Earth))))))
      ∧ trace s' = trace aliased
          ++ [ForceRead 0%nat 0%nat (position Earth) (position Earth);
              ForceRead 0%nat 0%nat (position Earth) (position Earth)]
          ++ positionWrites [0; 0]%nat
               [accelerate (accelerate Earth (calculateGravitationalForce Earth Earth))
                  (calculateGravitationalForce Earth Earth);
                rescale (game aliased) (move
                  (accelerate (accelerate Earth (calculateGravitationalForce Earth Earth))
                     (calculateGravitationalForce Earth Earth)))].
Proof.
  split; [reflexivity|]. split; [reflexivity|].
  exact (X14_object_listed_twice aliased 0%nat Earth eq_refl eq_refl).
Defined.
